(** * Boolector reduction core: SAT manager, status codes, node maps

    A shallow embedding of [btorsat.c], of the status codes and division
    conventions documented in [boolector.h], and of the node map interface
    declared in [btormap.h], together with the properties the specification
    states about them. *)

From Stdlib Require Import ZArith List Lia Bool String.
From stdpp Require Import base option list gmap.

Local Open Scope Z_scope.

(** ** Outcomes of a C call

    A call either returns, or dies in an [assert], or (for the loops that are
    modelled with a step budget) stops because the budget is used up. *)

Inductive outcome (A : Type) : Type :=
| Returns (a : A)
| AssertionFailed
| OutOfFuel.

Arguments Returns {A} a.
Arguments AssertionFailed {A}.
Arguments OutOfFuel {A}.

#[global] Instance outcome_ret : MRet outcome := @Returns.

#[global] Instance outcome_bind : MBind outcome := fun A B f m =>
  match m with
  | Returns a => f a
  | AssertionFailed => AssertionFailed
  | OutOfFuel => OutOfFuel
  end.

(** [assert (c)] of <assert.h>, with assertions enabled. *)
Definition assert (c : bool) : outcome unit :=
  if c then Returns tt else AssertionFailed.

Definition returns {A} (m : outcome A) : Prop := exists a, m = Returns a.

(** ** Status codes of [boolector.h] *)

Definition BOOLECTOR_UNKNOWN : Z := 0.
Definition BOOLECTOR_SAT : Z := 10.
Definition BOOLECTOR_UNSAT : Z := 20.
Definition BOOLECTOR_PARSE_ERROR : Z := 1.

(** ** The SAT manager of [btorsat.c] *)

Module Sat.

(** [INT_MAX] of <limits.h> for the 32-bit [int] of the supported targets. *)
Definition INT_MAX : Z := 2147483647.

(** [struct BtorSATMgr].  The memory manager is only ever compared with
    [NULL] and stored, so [BtorMemMgr *] is an address, [0] being [NULL]. *)
Record BtorSATMgr : Type := mkBtorSATMgr {
  id : Z;
  verbosity : Z;
  mm : Z
}.

(** A [BtorSATMgr *] argument: [None] is the [NULL] pointer. *)
Definition smgr_ptr : Type := option BtorSATMgr.

(** The PicoSAT library behind [../picosat/picosat.h], as an interface over
    its (global) solver state [P].  [FILE *] arguments are addresses. *)
Class PicoSAT (P : Type) : Type := {
  picosat_init : P -> P;
  picosat_set_output : P -> Z -> P;
  picosat_set_prefix : P -> string -> P;
  picosat_enable_verbosity : P -> P;
  picosat_stats : P -> P;
  picosat_add : P -> Z -> P;
  picosat_print : P -> Z -> P;
  picosat_assume : P -> Z -> P;
  picosat_sat : P -> Z -> Z * P;
  picosat_deref : P -> Z -> Z * P;
  picosat_reset : P -> P;
  picosat_changed : P -> Z * P
}.

(** What the functions act on besides the manager: the text written to
    [stderr] and the state of the backend. *)
Record World (P : Type) : Type := mkWorld {
  stderr : list string;
  backend : P
}.

Arguments mkWorld {P} _ _.
Arguments stderr {P} _.
Arguments backend {P} _.

Definition with_backend {P} (w : World P) (p : P) : World P :=
  mkWorld (stderr w) p.

(** A message that ends in a newline, as the C literals do. *)
Definition line (text : string) : string :=
  String.append text (String (Ascii.ascii_of_nat 10) EmptyString).

(** [fprintf (stderr, "[btorsat] %s", msg)] after [assert (msg != NULL)]. *)
Definition print_verbose_msg {P} (msg : option string) (w : World P)
  : outcome (World P) :=
  match msg with
  | None => AssertionFailed
  | Some text =>
      Returns (mkWorld (stderr w ++ [String.append "[btorsat] " text]) (backend w))
  end.

Definition btor_new_sat_mgr (mm0 : Z) (verbosity0 : Z) : outcome BtorSATMgr :=
  assert (negb (mm0 =? 0));;
  assert (-1 <=? verbosity0);;
  Returns {| id := 1; verbosity := verbosity0; mm := mm0 |}.

(** [return smgr->id++]: the value before the increment is returned.  The
    second assertion keeps the increment below the signed overflow. *)
Definition btor_next_cnf_id_sat_mgr (smgr : smgr_ptr)
  : outcome (Z * BtorSATMgr) :=
  match smgr with
  | None => AssertionFailed
  | Some s =>
      assert (id s <? INT_MAX);;
      Returns (id s, {| id := id s + 1; verbosity := verbosity s; mm := mm s |})
  end.

Definition btor_get_last_cnf_id_sat_mgr (smgr : smgr_ptr)
  : outcome (Z * BtorSATMgr) :=
  match smgr with
  | None => AssertionFailed
  | Some s =>
      assert (1 <? id s);;
      Returns (id s - 1, s)
  end.

(** [BTOR_DELETE (smgr->mm, smgr)] hands the storage back: nothing of the
    manager is left to return. *)
Definition btor_delete_sat_mgr (smgr : smgr_ptr) : outcome unit :=
  match smgr with
  | None => AssertionFailed
  | Some _ => Returns tt
  end.

Section Adapter.

Context {P : Type} `{PicoSAT P}.

Definition btor_init_sat (smgr : smgr_ptr) (w : World P)
  : outcome (BtorSATMgr * World P) :=
  match smgr with
  | None => AssertionFailed
  | Some s =>
      w1 ← (if 3 <=? verbosity s
            then print_verbose_msg (Some (line "initializing PicoSAT")) w
            else Returns w);
      Returns (s, with_backend w1 (picosat_init (backend w1)))
  end.

Definition btor_set_output_sat (smgr : smgr_ptr) (output : Z) (w : World P)
  : outcome (BtorSATMgr * World P) :=
  match smgr with
  | None => AssertionFailed
  | Some s =>
      assert (negb (output =? 0));;
      Returns (s, with_backend w
        (picosat_set_prefix (picosat_set_output (backend w) output) "[picosat] "))
  end.

Definition btor_enable_verbosity_sat (smgr : smgr_ptr) (w : World P)
  : outcome (BtorSATMgr * World P) :=
  match smgr with
  | None => AssertionFailed
  | Some s => Returns (s, with_backend w (picosat_enable_verbosity (backend w)))
  end.

Definition btor_print_stats_sat (smgr : smgr_ptr) (w : World P)
  : outcome (BtorSATMgr * World P) :=
  match smgr with
  | None => AssertionFailed
  | Some s => Returns (s, with_backend w (picosat_stats (backend w)))
  end.

Definition btor_add_sat (smgr : smgr_ptr) (lit : Z) (w : World P)
  : outcome (BtorSATMgr * World P) :=
  match smgr with
  | None => AssertionFailed
  | Some s => Returns (s, with_backend w (picosat_add (backend w) lit))
  end.

Definition btor_dump_cnf_sat (smgr : smgr_ptr) (output : Z) (w : World P)
  : outcome (BtorSATMgr * World P) :=
  match smgr with
  | None => AssertionFailed
  | Some s =>
      assert (negb (output =? 0));;
      Returns (s, with_backend w (picosat_print (backend w) output))
  end.

Definition btor_assume_sat (smgr : smgr_ptr) (lit : Z) (w : World P)
  : outcome (BtorSATMgr * World P) :=
  match smgr with
  | None => AssertionFailed
  | Some s => Returns (s, with_backend w (picosat_assume (backend w) lit))
  end.

Definition btor_sat_sat (smgr : smgr_ptr) (limit : Z) (w : World P)
  : outcome (Z * BtorSATMgr * World P) :=
  match smgr with
  | None => AssertionFailed
  | Some s =>
      w1 ← (if 0 <? verbosity s
            then print_verbose_msg (Some (line "calling PicoSAT")) w
            else Returns w);
      let r := picosat_sat (backend w1) limit in
      Returns (fst r, s, with_backend w1 (snd r))
  end.

Definition btor_deref_sat (smgr : smgr_ptr) (lit : Z) (w : World P)
  : outcome (Z * BtorSATMgr * World P) :=
  match smgr with
  | None => AssertionFailed
  | Some s =>
      let r := picosat_deref (backend w) lit in
      Returns (fst r, s, with_backend w (snd r))
  end.

Definition btor_reset_sat (smgr : smgr_ptr) (w : World P)
  : outcome (BtorSATMgr * World P) :=
  match smgr with
  | None => AssertionFailed
  | Some s =>
      w1 ← (if 3 <=? verbosity s
            then print_verbose_msg (Some (line "resetting PicoSAT")) w
            else Returns w);
      Returns (s, with_backend w1 (picosat_reset (backend w1)))
  end.

Definition btor_changed_assignments_sat (smgr : smgr_ptr) (w : World P)
  : outcome (Z * BtorSATMgr * World P) :=
  match smgr with
  | None => AssertionFailed
  | Some s =>
      let r := picosat_changed (backend w) in
      Returns (fst r, s, with_backend w (snd r))
  end.

(** The calls a client can make on a live manager, and what each returns
    (the [void] functions return [0] here). *)
Inductive SatCall : Type :=
| CallNextCnfId
| CallGetLastCnfId
| CallInit
| CallSetOutput (output : Z)
| CallEnableVerbosity
| CallPrintStats
| CallAdd (lit : Z)
| CallDumpCnf (output : Z)
| CallAssume (lit : Z)
| CallSat (limit : Z)
| CallDeref (lit : Z)
| CallReset
| CallChangedAssignments.

Definition void_call (m : outcome (BtorSATMgr * World P))
  : outcome (Z * BtorSATMgr * World P) :=
  '(s, w) ← m; Returns (0, s, w).

Definition run_call (c : SatCall) (s : BtorSATMgr) (w : World P)
  : outcome (Z * BtorSATMgr * World P) :=
  match c with
  | CallNextCnfId =>
      '(i, s') ← btor_next_cnf_id_sat_mgr (Some s); Returns (i, s', w)
  | CallGetLastCnfId =>
      '(i, s') ← btor_get_last_cnf_id_sat_mgr (Some s); Returns (i, s', w)
  | CallInit => void_call (btor_init_sat (Some s) w)
  | CallSetOutput output => void_call (btor_set_output_sat (Some s) output w)
  | CallEnableVerbosity => void_call (btor_enable_verbosity_sat (Some s) w)
  | CallPrintStats => void_call (btor_print_stats_sat (Some s) w)
  | CallAdd lit => void_call (btor_add_sat (Some s) lit w)
  | CallDumpCnf output => void_call (btor_dump_cnf_sat (Some s) output w)
  | CallAssume lit => void_call (btor_assume_sat (Some s) lit w)
  | CallSat limit => btor_sat_sat (Some s) limit w
  | CallDeref lit => btor_deref_sat (Some s) lit w
  | CallReset => void_call (btor_reset_sat (Some s) w)
  | CallChangedAssignments => btor_changed_assignments_sat (Some s) w
  end.

(** A client session: the calls of [cs] one after the other. *)
Fixpoint run_calls (cs : list SatCall) (s : BtorSATMgr) (w : World P)
  : outcome (BtorSATMgr * World P) :=
  match cs with
  | [] => Returns (s, w)
  | c :: cs' => '(_, s', w') ← run_call c s w; run_calls cs' s' w'
  end.

Definition is_next (c : SatCall) : bool :=
  match c with CallNextCnfId => true | _ => false end.

End Adapter.

(** [n] successive calls of [btor_next_cnf_id_sat_mgr], with the ids they
    returned, first call first. *)
Fixpoint issue_ids (n : nat) (s : BtorSATMgr) : outcome (list Z * BtorSATMgr) :=
  match n with
  | O => Returns ([], s)
  | S n' =>
      '(i, s1) ← btor_next_cnf_id_sat_mgr (Some s);
      '(rest, s2) ← issue_ids n' s1;
      Returns (i :: rest, s2)
  end.

(** The ids [a], [a+1], ..., [a+n-1]. *)
Definition ids_from (a : Z) (n : nat) : list Z :=
  (fun k : nat => a + Z.of_nat k) <$> seq 0 n.

(** A stand-in backend for examples: it needs [work] decisions to reach its
    [answer], and gives up when a non-negative limit is smaller. *)
Record ToySolver : Type := mkToySolver {
  work : Z;
  answer : bool
}.

Definition toy_sat (p : ToySolver) (limit : Z) : Z * ToySolver :=
  if (0 <=? limit) && (limit <? work p) then (BOOLECTOR_UNKNOWN, p)
  else if answer p then (BOOLECTOR_SAT, p) else (BOOLECTOR_UNSAT, p).

#[global] Instance toy_picosat : PicoSAT ToySolver := {|
  picosat_init := fun p => p;
  picosat_set_output := fun p _ => p;
  picosat_set_prefix := fun p _ => p;
  picosat_enable_verbosity := fun p => p;
  picosat_stats := fun p => p;
  picosat_add := fun p _ => p;
  picosat_print := fun p _ => p;
  picosat_assume := fun p _ => p;
  picosat_sat := toy_sat;
  picosat_deref := fun p _ => (0, p);
  picosat_reset := fun p => p;
  picosat_changed := fun p => (0, p)
|}.

End Sat.

(** ** Sessions on a SAT manager

    Vocabulary for what a client sees over a whole sequence of calls of
    [btorsat.c]: the values the calls returned, the lines they wrote, and
    the PicoSAT calls they made. *)

Module Session.

Import Sat.

Section Calls.

Context {P : Type} `{PicoSAT P}.

(** The calls of [cs] one after the other, with the value each returned. *)
Fixpoint run_calls_results (cs : list SatCall) (s : BtorSATMgr) (w : World P)
  : outcome (list Z * BtorSATMgr * World P) :=
  match cs with
  | [] => Returns ([], s, w)
  | c :: cs' =>
      '(r, s1, w1) ← run_call c s w;
      '(rs, s2, w2) ← run_calls_results cs' s1 w1;
      Returns (r :: rs, s2, w2)
  end.

(** What PicoSAT is asked to do by a call: the library calls in the body of
    the function, in their order. *)
Definition backend_step (c : SatCall) (p : P) : P :=
  match c with
  | CallNextCnfId | CallGetLastCnfId => p
  | CallInit => picosat_init p
  | CallSetOutput output => picosat_set_prefix (picosat_set_output p output) "[picosat] "
  | CallEnableVerbosity => picosat_enable_verbosity p
  | CallPrintStats => picosat_stats p
  | CallAdd lit => picosat_add p lit
  | CallDumpCnf output => picosat_print p output
  | CallAssume lit => picosat_assume p lit
  | CallSat limit => (picosat_sat p limit).2
  | CallDeref lit => (picosat_deref p lit).2
  | CallReset => picosat_reset p
  | CallChangedAssignments => (picosat_changed p).2
  end.

(** What a call that goes to PicoSAT returns: the library's answer for the
    three functions that return one, [0] for the [void] ones. *)
Definition backend_answer (c : SatCall) (p : P) : Z :=
  match c with
  | CallSat limit => (picosat_sat p limit).1
  | CallDeref lit => (picosat_deref p lit).1
  | CallChangedAssignments => (picosat_changed p).1
  | _ => 0
  end.

(** The backend after the PicoSAT calls of a whole session. *)
Definition backend_after (cs : list SatCall) (p : P) : P :=
  foldl (fun q c => backend_step c q) p cs.

End Calls.

(** The number of [btor_next_cnf_id_sat_mgr] calls among [cs]. *)
Definition count_next (cs : list SatCall) : nat :=
  length (filter (fun c => is_next c = true) cs).

(** Of the values [rs] returned by the calls [cs], those returned by
    [btor_next_cnf_id_sat_mgr]. *)
Fixpoint next_results (cs : list SatCall) (rs : list Z) : list Z :=
  match cs, rs with
  | c :: cs', r :: rs' =>
      if is_next c then r :: next_results cs' rs' else next_results cs' rs'
  | _, _ => []
  end.

(** The call hands a null [FILE *] to a function that asserts it is not. *)
Definition null_output (c : SatCall) : bool :=
  match c with
  | CallSetOutput output | CallDumpCnf output => output =? 0
  | _ => false
  end.

(** The calls made before the first [btor_next_cnf_id_sat_mgr]. *)
Fixpoint before_first_next (cs : list SatCall) : list SatCall :=
  match cs with
  | [] => []
  | c :: cs' => if is_next c then [] else c :: before_first_next cs'
  end.

(** The line a call writes to [stderr] under verbosity [v], if it writes
    one: the guards and the literals of [btor_init_sat], [btor_sat_sat] and
    [btor_reset_sat]. *)
Definition announcement (v : Z) (c : SatCall) : option string :=
  match c with
  | CallInit =>
      if 3 <=? v then Some (String.append "[btorsat] " (line "initializing PicoSAT"))
      else None
  | CallSat _ =>
      if 0 <? v then Some (String.append "[btorsat] " (line "calling PicoSAT"))
      else None
  | CallReset =>
      if 3 <=? v then Some (String.append "[btorsat] " (line "resetting PicoSAT"))
      else None
  | _ => None
  end.

(** The whole life of a manager: made, used for the calls [cs], deleted. *)
Definition lifetime {P : Type} `{PicoSAT P}
    (mm0 verbosity0 : Z) (cs : list SatCall) (w : World P)
  : outcome (list Z * World P) :=
  s ← btor_new_sat_mgr mm0 verbosity0;
  '(rs, s', w') ← run_calls_results cs s w;
  btor_delete_sat_mgr (Some s');;
  Returns (rs, w').

End Session.

(** ** Node references, the node store and node maps ([btormap.h])

    [btormap.h] declares the map functions; their bodies, the node store
    they count references in and the tagging macros live in files that are
    not part of the sources.  They are modelled here from the specification
    and from the comments of the header. *)

Module Node.

(** Modelled from the spec: the macro of [btorexp.h] that strips the tag.  A
    [BtorNode *] carries its tag in the two low bits of the address ("a
    tagged with (1|2|3)"); the node itself lives at the address with both
    bits cleared. *)
Definition BTOR_REAL_ADDR_NODE (p : Z) : Z := Z.ldiff p 3.

(** Modelled from the spec: the tag a reference carries, the two low bits. *)
Definition BTOR_GET_TAG_NODE (p : Z) : Z := Z.land p 3.

(** Modelled from the spec: the reference with tag [t] put on it. *)
Definition BTOR_TAG_NODE (p t : Z) : Z := Z.lor p t.

(** Modelled from the spec: the polarity tag is bit 0 ("logically
    inverted"); inverting a reference flips it. *)
Definition BTOR_INVERT_NODE (p : Z) : Z := Z.lxor p 1.

(** Modelled from the spec: the test of the polarity tag. *)
Definition BTOR_IS_INVERTED_NODE (p : Z) : bool := Z.testbit p 0.

(** Modelled from the spec: a node of the store, as far as the map and the
    substitution need it: its reference count (a stored node has at least
    one reference) and its ordered child references [e]. *)
Record BtorNode : Type := mkBtorNode {
  refs : positive;
  e : list Z
}.

(** Modelled from the spec: one reference more on a node. *)
Definition incr_refs (n : BtorNode) : BtorNode :=
  {| refs := Pos.succ (refs n); e := e n |}.

(** Modelled from the spec: one reference fewer on a node that keeps some. *)
Definition decr_refs (n : BtorNode) : BtorNode :=
  {| refs := Pos.pred (refs n); e := e n |}.

(** The part of [struct Btor] the map functions work on: the node store,
    from the address of each live node to the node. *)
Abbreviation Btor := (gmap Z BtorNode) (only parsing).

(** The store after one more reference on the node of [p]. *)
Definition acquired (p : Z) (st : Btor) : Btor :=
  alter incr_refs (BTOR_REAL_ADDR_NODE p) st.

(** The node of [p] is in the store. *)
Definition alive (st : Btor) (p : Z) : Prop :=
  is_Some (st !! BTOR_REAL_ADDR_NODE p).


(** Modelled from the spec: the node store's [acquire] ([btor_copy_exp], not
    in the sources): "increments ref count, returns same reference".  The
    store maps the address of each live node to the node; a reference to no
    live node is a precondition violation. *)
Definition btor_copy_exp (st : Btor) (p : Z) : outcome Btor :=
  match st !! BTOR_REAL_ADDR_NODE p with
  | Some _ => Returns (acquired p st)
  | None => AssertionFailed
  end.

(** Modelled from the spec: the loop of the node store's [release]:
    "decrements ref count; at zero, recursively (via an explicit work list,
    never native call-stack recursion) releases children and frees the
    node's storage". *)
Fixpoint release_loop (fuel : nat) (work : list Z) (st : Btor)
  : outcome Btor :=
  match work with
  | [] => Returns st
  | p :: rest =>
      match fuel with
      | O => OutOfFuel
      | S fuel' =>
          match st !! BTOR_REAL_ADDR_NODE p with
          | None => AssertionFailed
          | Some n =>
              if (refs n =? 1)%positive
              then release_loop fuel' (e n ++ rest) (delete (BTOR_REAL_ADDR_NODE p) st)
              else release_loop fuel' rest (alter decr_refs (BTOR_REAL_ADDR_NODE p) st)
          end
      end
  end.

(** All references held on all nodes of the store: every turn of the release
    loop gives one of them back. *)
Definition total_refs (st : Btor) : nat :=
  map_fold (fun _ n acc => (Pos.to_nat (refs n) + acc)%nat) 0%nat st.

(** Modelled from the spec: the node store's [release]
    ([btor_release_exp], not in the sources). *)
Definition btor_release_exp (st : Btor) (p : Z) : outcome Btor :=
  release_loop (S (total_refs st)) [p] st.

(** [typedef struct BtorPtrHashTable BtorNodeMap]: the buckets, oldest
    first, each a key and its datum. *)
Abbreviation BtorNodeMap := (list (Z * Z)) (only parsing).

(** Modelled from the spec: [struct BtorPtrHashTable] used as a node map,
    as its buckets in insertion order: the key is the untagged source, the
    datum the destination for the untagged source. *)
Fixpoint find_bucket (m : BtorNodeMap) (k : Z) : option Z :=
  match m with
  | [] => None
  | (k', d) :: m' => if k' =? k then Some d else find_bucket m' k
  end.

(** Modelled from the spec: store [d] under [k], in the bucket [k] already
    has or else in a new last bucket. *)
Fixpoint set_bucket (m : BtorNodeMap) (k d : Z) : BtorNodeMap :=
  match m with
  | [] => [(k, d)]
  | (k', d') :: m' =>
      if k' =? k then (k, d) :: m' else (k', d') :: set_bucket m' k d
  end.


(** [BTOR_COUNT_MAP (MAP)] is [(assert (MAP), (MAP)->count)]; the argument is
    a pointer, [None] being [NULL]. *)
Definition BTOR_COUNT_MAP (map : option BtorNodeMap) : outcome Z :=
  match map with
  | None => AssertionFailed
  | Some m => Returns (Z.of_nat (length m))
  end.

(** Modelled from the spec: [btor_mapped_node] (body not in the sources):
    "returns the mapped destination (tag-adjusted to match src's polarity)
    without acquiring a new reference; None if unmapped".  The tag of the
    looked-up reference is transferred onto the stored destination. *)
Definition btor_mapped_node (m : BtorNodeMap) (node : Z) : option Z :=
  match find_bucket m (BTOR_REAL_ADDR_NODE node) with
  | Some d => Some (Z.lxor d (BTOR_GET_TAG_NODE node))
  | None => None
  end.

(** Modelled from the spec: [btor_map_node] (body not in the sources):
    "inserts the pair (or overwrites the prior dst, releasing its owned
    reference), each of src/dst is acquired"; null references are
    precondition violations.  Both references are acquired on every call;
    on an overwrite the reference owned on the prior destination is
    released, and nothing else is. *)
Definition btor_map_node (st : Btor) (m : BtorNodeMap) (src dst : Z)
  : outcome (Btor * BtorNodeMap) :=
  assert (negb (BTOR_REAL_ADDR_NODE src =? 0));;
  assert (negb (BTOR_REAL_ADDR_NODE dst =? 0));;
  let k := BTOR_REAL_ADDR_NODE src in
  let d := Z.lxor dst (BTOR_GET_TAG_NODE src) in
  st1 ← btor_copy_exp st src;
  st2 ← btor_copy_exp st1 dst;
  match find_bucket m k with
  | None => Returns (st2, set_bucket m k d)
  | Some old =>
      st3 ← btor_release_exp st2 old;
      Returns (st3, set_bucket m k d)
  end.


(** A client that maps the pairs of [pairs] one after the other. *)
Fixpoint map_nodes (st : Btor) (m : BtorNodeMap) (pairs : BtorNodeMap)
  : outcome (Btor * BtorNodeMap) :=
  match pairs with
  | [] => Returns (st, m)
  | (src, dst) :: pairs' =>
      '(st1, m1) ← btor_map_node st m src dst;
      map_nodes st1 m1 pairs'
  end.



(** The keys of a map are untagged addresses. *)
Definition untagged_keys (m : BtorNodeMap) : Prop :=
  Forall (fun b => BTOR_GET_TAG_NODE b.1 = 0) m.




(** A small store for examples: a leaf at address 4, a leaf at address 8 and
    a node at address 12 over the leaf and the inverted leaf. *)
Definition demo_store : Btor :=
  <[4 := {| refs := 2; e := [] |}]>
    (<[8 := {| refs := 2; e := [] |}]>
       (<[12 := {| refs := 1; e := [4; 9] |}]> ∅)).



(** *** The non-recursive substitution *)

(** Modelled from the spec: the visit-state of a frame of the explicit
    stack: "pre-order to push unmapped children, post-order to rebuild from
    already-substituted children". *)
Inductive Visit : Type := PreOrder | PostOrder.

Section Substitution.

(** The "arbitrary state" a mapper works on ([void *state]). *)
Context {St : Type}.

(** The function type [BtorNodeMapper] of [btormap.h]: a mapper takes the
    solver, its state and a node; it may change the store and its state, and
    returns a new reference or [None] (the 0 pointer) if it cannot map the
    node. *)
Definition BtorNodeMapper : Type :=
  Btor -> St -> Z -> option Z * Btor * St.

(** The node store's [make], applied to the kind and width of the node at
    the given address and to its substituted children; it returns a newly
    owned reference.  The node store is not part of the sources. *)
Variable rebuild : Btor -> Z -> list Z -> outcome (Z * Btor).

(** Modelled from the spec: the state of a traversal: the store, the map
    used as the results cache, the mapper's state and the "explicit stack of
    (node, visit-state) frames"; [t_status] records how the traversal died,
    if it did. *)
Record Traversal : Type := mkTraversal {
  t_store : Btor;
  t_map : BtorNodeMap;
  t_state : St;
  t_stack : list (Z * Visit);
  t_status : outcome unit
}.

(** Modelled from the spec: the traversal dies where it stands. *)
Definition stopped (t : Traversal) (why : outcome unit) : Traversal :=
  {| t_store := t_store t; t_map := t_map t; t_state := t_state t;
     t_stack := t_stack t; t_status := why |}.

(** Modelled from the spec: a replacement "is cached in the map": the map
    acquires its own references, and the traversal gives back the owned
    reference it was handed. *)
Definition cache_result (t : Traversal) (node mapped : Z) (rest : list (Z * Visit))
  : Traversal :=
  match btor_map_node (t_store t) (t_map t) node mapped with
  | Returns (st1, m1) =>
      match btor_release_exp st1 mapped with
      | Returns st2 =>
          {| t_store := st2; t_map := m1; t_state := t_state t;
             t_stack := rest; t_status := Returns tt |}
      | AssertionFailed => stopped t AssertionFailed
      | OutOfFuel => stopped t OutOfFuel
      end
  | AssertionFailed => stopped t AssertionFailed
  | OutOfFuel => stopped t OutOfFuel
  end.

(** Modelled from the spec: the children that are pushed are the "unmapped
    children". *)
Definition unmapped (m : BtorNodeMap) (child : Z) : bool :=
  match btor_mapped_node m child with
  | Some _ => false
  | None => true
  end.

(** Modelled from the spec: one turn of the loop of
    [btor_non_recursive_extended_substitute_node] (body not in the sources).
    The frame on top is popped and its node untagged; a node the map already
    has is skipped; on the pre-order visit the mapper is tried first and its
    replacement cached, else the node is pushed back for its post-order visit
    under its unmapped children; on the post-order visit the node is rebuilt
    from the results of its children and the result cached. *)
Definition visit (mapper : BtorNodeMapper) (t : Traversal) : Traversal :=
  match t_status t, t_stack t with
  | Returns _, (p, v) :: rest =>
      let node := BTOR_REAL_ADDR_NODE p in
      match btor_mapped_node (t_map t) node with
      | Some _ =>
          {| t_store := t_store t; t_map := t_map t; t_state := t_state t;
             t_stack := rest; t_status := Returns tt |}
      | None =>
          match v with
          | PreOrder =>
              let r := mapper (t_store t) (t_state t) node in
              let t1 := {| t_store := r.1.2; t_map := t_map t; t_state := r.2;
                           t_stack := t_stack t; t_status := Returns tt |} in
              match r.1.1 with
              | Some mapped => cache_result t1 node mapped rest
              | None =>
                  match t_store t1 !! node with
                  | None => stopped t1 AssertionFailed
                  | Some n =>
                      {| t_store := t_store t1; t_map := t_map t1;
                         t_state := t_state t1;
                         t_stack :=
                           ((fun c => (c, PreOrder)) <$> filter (fun c => unmapped (t_map t1) c = true) (e n))
                           ++ (node, PostOrder) :: rest;
                         t_status := Returns tt |}
                  end
              end
          | PostOrder =>
              match t_store t !! node with
              | None => stopped t AssertionFailed
              | Some n =>
                  match mapM (btor_mapped_node (t_map t)) (e n) with
                  | None => stopped t AssertionFailed
                  | Some results =>
                      match rebuild (t_store t) node results with
                      | Returns (res, st1) =>
                          cache_result
                            {| t_store := st1; t_map := t_map t; t_state := t_state t;
                               t_stack := t_stack t; t_status := Returns tt |}
                            node res rest
                      | AssertionFailed => stopped t AssertionFailed
                      | OutOfFuel => stopped t OutOfFuel
                      end
                  end
              end
          end
      end
  | _, _ => t
  end.

(** Modelled from the spec: at most [fuel] turns of the loop. *)
Fixpoint traverse (fuel : nat) (mapper : BtorNodeMapper) (t : Traversal) : Traversal :=
  match fuel with
  | O => t
  | S fuel' => traverse fuel' mapper (visit mapper t)
  end.

(** Modelled from the spec: the traversal starts with the root on the
    stack, for its pre-order visit. *)
Definition start (st : Btor) (m : BtorNodeMap) (state : St) (root : Z)
  : Traversal :=
  {| t_store := st; t_map := m; t_state := state;
     t_stack := [(root, PreOrder)]; t_status := Returns tt |}.

(** Modelled from the spec: [btor_non_recursive_extended_substitute_node]
    (body not in the sources): the traversal from [root], then "returns a
    newly acquired reference to the substituted root", which is the
    map's entry for [root] with the tag of [root]. *)
Definition btor_non_recursive_extended_substitute_node
    (fuel : nat) (st : Btor) (m : BtorNodeMap) (state : St)
    (mapper : BtorNodeMapper) (root : Z)
  : outcome (Z * Btor * BtorNodeMap * St) :=
  let t := traverse fuel mapper (start st m state root) in
  match t_status t with
  | Returns _ =>
      match t_stack t with
      | [] =>
          match btor_mapped_node (t_map t) root with
          | None => AssertionFailed
          | Some res =>
              st' ← btor_copy_exp (t_store t) res;
              Returns (res, st', t_map t, t_state t)
          end
      | _ :: _ => OutOfFuel
      end
  | AssertionFailed => AssertionFailed
  | OutOfFuel => OutOfFuel
  end.

End Substitution.

(** Modelled from the spec: the mapper that maps nothing. *)
Definition never_map : @BtorNodeMapper unit := fun st state _ => (None, st, state).

(** Modelled from the spec: [btor_non_recursive_substitute_node] (body not
    in the sources): the "same traversal" with no mapper to try. *)
Definition btor_non_recursive_substitute_node
    (rebuild : Btor -> Z -> list Z -> outcome (Z * Btor))
    (fuel : nat) (st : Btor) (m : BtorNodeMap) (root : Z)
  : outcome (Z * Btor * BtorNodeMap) :=
  r ← btor_non_recursive_extended_substitute_node rebuild fuel st m tt never_map root;
  Returns r.1.

(** A mapper that also writes down, in its state, every node it is called
    with, first call first. *)
Definition recording {St : Type} (mapper : @BtorNodeMapper St)
  : @BtorNodeMapper (list Z * St) :=
  fun st state node =>
    let r := mapper st state.2 node in
    (r.1.1, r.1.2, (state.1 ++ [node], r.2)).

(** The traversal under a recording mapper, without the record. *)
Definition forget_record {St : Type} (t : @Traversal (list Z * St)) : @Traversal St :=
  {| t_store := t_store t; t_map := t_map t; t_state := (t_state t).2;
     t_stack := t_stack t; t_status := t_status t |}.

(** A mapper for examples: it maps the node at address 12 to the leaf at
    address 8, handing out a new reference to it, and nothing else. *)
Definition demo_mapper : @BtorNodeMapper unit :=
  fun st state node =>
    if node =? 12 then (Some 8, acquired 8 st, state) else (None, st, state).

(** A [rebuild] for examples: the node itself, with one more reference. *)
Definition rebuild_same (st : Btor) (node : Z) (results : list Z)
  : outcome (Z * Btor) :=
  st' ← btor_copy_exp st node; Returns (node, st').

End Node.

(** ** Unsigned division and remainder ([boolector.h])

    [boolector.h] declares [boolector_udiv] and [boolector_urem] and documents
    their values; the code that builds and evaluates the terms is not part of
    the sources.  A bit vector of width [w] is the number in [0, 2^w) its bits
    spell. *)

Module BitVec.

(** The bit vector of width [w] with every bit set, which is -1 when read as
    a signed number. *)
Definition bv_ones (w : Z) : Z := 2 ^ w - 1.

(** The signed reading of a bit vector of width [w] (two's complement). *)
Definition bv_signed (w x : Z) : Z :=
  if x <? 2 ^ (w - 1) then x else x - 2 ^ w.

(** Modelled from the spec: the value of [boolector_udiv (btor, n0, n1)] for
    operands of width [w]: "If n1 is zero, then the result is -1", else the
    unsigned quotient. *)
Definition boolector_udiv (w n0 n1 : Z) : Z :=
  if n1 =? 0 then bv_ones w else n0 / n1.

(** Modelled from the spec: the value of [boolector_urem (btor, n0, n1)] for
    operands of width [w]: "If n1 is zero, then the result is n0", else the
    unsigned remainder. *)
Definition boolector_urem (w n0 n1 : Z) : Z :=
  if n1 =? 0 then n0 else n0 mod n1.

End BitVec.

(* ===================================================================== *)
(** * Properties *)
(* ===================================================================== *)

Lemma assert_true (c : bool) : c = true -> assert c = Returns tt.
Proof. intros ->. reflexivity. Qed.

Lemma assert_false (c : bool) : c = false -> assert c = AssertionFailed.
Proof. intros ->. reflexivity. Qed.

Lemma bind_returns {A B} (m : outcome A) (f : A -> outcome B) (b : B) :
  m ≫= f = Returns b -> exists a, m = Returns a /\ f a = Returns b.
Proof. destruct m as [a| |]; cbn; intros Hm; try discriminate. eauto. Qed.

(** ** The SAT manager *)

Section SatManagerFacts.

Import Sat.

Lemma next_cnf_id_below (s : BtorSATMgr) :
  id s < INT_MAX ->
  btor_next_cnf_id_sat_mgr (Some s)
  = Returns (id s, {| id := id s + 1; verbosity := verbosity s; mm := mm s |}).
Proof.
  intros Hlt. unfold btor_next_cnf_id_sat_mgr.
  rewrite assert_true; [reflexivity | now apply Z.ltb_lt].
Qed.

Lemma next_cnf_id_at_limit (s : BtorSATMgr) :
  INT_MAX <= id s -> btor_next_cnf_id_sat_mgr (Some s) = AssertionFailed.
Proof.
  intros Hge. unfold btor_next_cnf_id_sat_mgr.
  rewrite assert_false; [reflexivity | now apply Z.ltb_ge].
Qed.

Lemma next_cnf_id_inv (s s' : BtorSATMgr) (i : Z) :
  btor_next_cnf_id_sat_mgr (Some s) = Returns (i, s') ->
  id s < INT_MAX /\ i = id s /\
  s' = {| id := id s + 1; verbosity := verbosity s; mm := mm s |}.
Proof.
  intros Hret. destruct (Z.lt_ge_cases (id s) INT_MAX) as [Hlt | Hge].
  - rewrite (next_cnf_id_below s Hlt) in Hret. now inversion Hret.
  - rewrite (next_cnf_id_at_limit s Hge) in Hret. discriminate.
Qed.

Lemma ids_from_succ (a : Z) (n : nat) :
  ids_from a (S n) = a :: ids_from (a + 1) n.
Proof.
  unfold ids_from. cbn [seq fmap list_fmap]. f_equal; [lia |].
  rewrite <- seq_shift, <- list_fmap_compose.
  apply list_fmap_ext. intros _ k _. cbn. lia.
Qed.

Lemma ids_from_one (n : nat) : ids_from 1 n = Z.of_nat <$> seq 1 n.
Proof.
  unfold ids_from. rewrite <- seq_shift, <- list_fmap_compose.
  apply list_fmap_ext. intros _ k _. cbn. lia.
Qed.

Lemma ids_from_lookup (a : Z) (n k : nat) :
  (k < n)%nat -> ids_from a n !! k = Some (a + Z.of_nat k).
Proof.
  intros Hk. unfold ids_from. rewrite list_lookup_fmap.
  rewrite lookup_seq_lt by exact Hk. reflexivity.
Qed.

Lemma ids_from_length (a : Z) (n : nat) : length (ids_from a n) = n.
Proof. unfold ids_from. now rewrite length_fmap, length_seq. Qed.

Lemma ids_from_increasing (a : Z) (n j k : nat) (x y : Z) :
  (j < k)%nat -> ids_from a n !! j = Some x -> ids_from a n !! k = Some y ->
  x < y.
Proof.
  intros Hjk Hx Hy.
  assert (Hk : (k < n)%nat).
  { apply lookup_lt_Some in Hy. now rewrite ids_from_length in Hy. }
  rewrite ids_from_lookup in Hx, Hy by lia.
  inversion Hx; inversion Hy; lia.
Qed.

(** What [n] successive calls return, whenever all of them return. *)
Lemma issue_ids_inv (n : nat) :
  forall (s s' : BtorSATMgr) (ids : list Z),
  issue_ids n s = Returns (ids, s') ->
  ids = ids_from (id s) n /\
  id s' = id s + Z.of_nat n /\ verbosity s' = verbosity s /\ mm s' = mm s /\
  ((1 <= n)%nat -> id s + Z.of_nat n <= INT_MAX).
Proof.
  induction n as [| n IH]; intros s s' ids Hrun.
  - cbn in Hrun. inversion Hrun; subst. cbn.
    split; [reflexivity |]. split; [lia |]. do 2 (split; [reflexivity |]). lia.
  - cbn [issue_ids] in Hrun.
    apply bind_returns in Hrun as ([i s1] & Hnext & Hrun).
    apply bind_returns in Hrun as ([rest s2] & Hrest & Hrun).
    inversion Hrun; subst; clear Hrun.
    apply next_cnf_id_inv in Hnext as (Hlt & -> & ->).
    apply IH in Hrest as (-> & Hid & Hv & Hm & Hle). cbn in Hid, Hv, Hm, Hle.
    rewrite ids_from_succ.
    split; [reflexivity |]. split; [lia |]. split; [assumption |].
    split; [assumption |].
    intros _. destruct n as [| n]; [lia |]. specialize (Hle ltac:(lia)). lia.
Qed.

(** [n] successive calls all return as long as the counter stays in range. *)
Lemma issue_ids_returns (n : nat) :
  forall s : BtorSATMgr,
  id s + Z.of_nat n <= INT_MAX ->
  exists s', issue_ids n s = Returns (ids_from (id s) n, s').
Proof.
  induction n as [| n IH]; intros s Hle.
  - exists s. reflexivity.
  - cbn [issue_ids]. rewrite next_cnf_id_below, ids_from_succ by lia.
    destruct (IH {| id := id s + 1; verbosity := verbosity s; mm := mm s |})
      as [s' Hs']; [cbn; lia |].
    cbn [id] in Hs'. cbn [mbind outcome_bind]. rewrite Hs'.
    exists s'. reflexivity.
Qed.

(** Past the last id the run dies in the assertion. *)
Lemma issue_ids_exhausted (n : nat) :
  forall s : BtorSATMgr,
  id s <= INT_MAX -> INT_MAX < id s + Z.of_nat n ->
  issue_ids n s = AssertionFailed.
Proof.
  induction n as [| n IH]; intros s Hle Hgt; [lia |].
  cbn [issue_ids].
  destruct (Z.eq_dec (id s) INT_MAX) as [Heq | Hne].
  - rewrite next_cnf_id_at_limit by lia. reflexivity.
  - rewrite next_cnf_id_below by lia. cbn.
    rewrite IH; [reflexivity | cbn; lia | cbn; lia].
Qed.

Lemma new_sat_mgr_inv (mm0 v : Z) (s : BtorSATMgr) :
  btor_new_sat_mgr mm0 v = Returns s ->
  s = {| id := 1; verbosity := v; mm := mm0 |} /\ mm0 <> 0 /\ -1 <= v.
Proof.
  unfold btor_new_sat_mgr. intros Hnew.
  destruct (Z.eqb_spec mm0 0) as [-> | Hmm]; [discriminate |].
  destruct (Z.leb_spec (-1) v) as [Hv | Hv]; [| discriminate].
  cbn in Hnew. inversion Hnew. auto.
Qed.

Lemma get_last_cnf_id_issued (s : BtorSATMgr) :
  1 < id s -> btor_get_last_cnf_id_sat_mgr (Some s) = Returns (id s - 1, s).
Proof.
  intros Hgt. unfold btor_get_last_cnf_id_sat_mgr.
  rewrite assert_true; [reflexivity | now apply Z.ltb_lt].
Qed.

Lemma get_last_cnf_id_none_issued (s : BtorSATMgr) :
  id s <= 1 -> btor_get_last_cnf_id_sat_mgr (Some s) = AssertionFailed.
Proof.
  intros Hle. unfold btor_get_last_cnf_id_sat_mgr.
  rewrite assert_false; [reflexivity | now apply Z.ltb_ge].
Qed.

(** C1: a manager made by [btor_new_sat_mgr] starts with [id = 1]; whenever
    [n] successive calls of [btor_next_cnf_id_sat_mgr] return, the k-th of
    them returned k, so the ids are strictly increasing, and after [n >= 1]
    of them [btor_get_last_cnf_id_sat_mgr] returns the n-th id; the [n] calls
    do all return while [n < INT_MAX]. *)
Theorem sat_mgr_ids_count_from_one (mm0 v : Z) (s0 : BtorSATMgr) :
  btor_new_sat_mgr mm0 v = Returns s0 ->
  id s0 = 1 /\
  (forall (n : nat) (ids : list Z) (s : BtorSATMgr),
     issue_ids n s0 = Returns (ids, s) ->
     ids = Z.of_nat <$> seq 1 n /\
     (forall (j k : nat) (x y : Z),
        (j < k)%nat -> ids !! j = Some x -> ids !! k = Some y -> x < y) /\
     ((1 <= n)%nat ->
        last ids = Some (Z.of_nat n) /\
        btor_get_last_cnf_id_sat_mgr (Some s) = Returns (Z.of_nat n, s))) /\
  (forall n : nat, Z.of_nat n < INT_MAX -> returns (issue_ids n s0)).
Proof.
  intros Hnew. apply new_sat_mgr_inv in Hnew as (-> & _ & _). cbn [id].
  split; [reflexivity |]. split.
  - intros n ids s Hrun.
    apply issue_ids_inv in Hrun as (Hids & Hid & _ & _ & _). cbn [id] in *.
    split; [now rewrite Hids, ids_from_one |]. split.
    + intros j k x y Hjk Hx Hy. rewrite Hids in Hx, Hy.
      exact (ids_from_increasing 1 n j k x y Hjk Hx Hy).
    + intros Hn. split.
      * rewrite Hids, last_lookup, ids_from_length.
        rewrite ids_from_lookup by lia. f_equal. lia.
      * rewrite get_last_cnf_id_issued by lia. do 2 f_equal. lia.
  - intros n Hn.
    destruct (issue_ids_returns n {| id := 1; verbosity := v; mm := mm0 |})
      as [s' Hs']; [cbn; lia |].
    eexists. exact Hs'.
Qed.

Lemma sat_mgr_ids_count_from_one_witness :
  btor_new_sat_mgr 7 0 = Returns {| id := 1; verbosity := 0; mm := 7 |} /\
  (forall (ids : list Z) (s : BtorSATMgr),
     issue_ids 3 {| id := 1; verbosity := 0; mm := 7 |} = Returns (ids, s) ->
     ids = [1; 2; 3]) /\
  returns (issue_ids 3 {| id := 1; verbosity := 0; mm := 7 |}).
Proof.
  pose proof (sat_mgr_ids_count_from_one 7 0
                {| id := 1; verbosity := 0; mm := 7 |} eq_refl) as (_ & Hall & Hret).
  split; [reflexivity |]. split.
  - intros ids s Hrun. exact (proj1 (Hall 3%nat ids s Hrun)).
  - apply (Hret 3%nat). reflexivity.
Defined.

(** C5: [btor_next_cnf_id_sat_mgr] dies in its assertion when the stored id
    has reached [INT_MAX], and returns the stored id, leaving it incremented,
    when the stored id is below [INT_MAX]; a fresh manager reaches the failing
    state after [INT_MAX - 1] ids. *)
Theorem next_cnf_id_fails_when_exhausted (s : BtorSATMgr) :
  (id s = INT_MAX -> btor_next_cnf_id_sat_mgr (Some s) = AssertionFailed) /\
  (id s < INT_MAX ->
     btor_next_cnf_id_sat_mgr (Some s)
     = Returns (id s, {| id := id s + 1; verbosity := verbosity s; mm := mm s |})) /\
  (id s = 1 -> forall n : nat,
     INT_MAX <= Z.of_nat n -> issue_ids n s = AssertionFailed).
Proof.
  split; [| split].
  - intros Heq. apply next_cnf_id_at_limit. lia.
  - apply next_cnf_id_below.
  - intros Hone n Hn. apply issue_ids_exhausted; rewrite Hone; unfold INT_MAX in *; lia.
Qed.

Lemma next_cnf_id_fails_when_exhausted_witness :
  btor_next_cnf_id_sat_mgr (Some {| id := INT_MAX; verbosity := 0; mm := 7 |})
  = AssertionFailed /\
  btor_next_cnf_id_sat_mgr (Some {| id := 41; verbosity := 0; mm := 7 |})
  = Returns (41, {| id := 42; verbosity := 0; mm := 7 |}).
Proof.
  split.
  - apply (proj1 (next_cnf_id_fails_when_exhausted
                    {| id := INT_MAX; verbosity := 0; mm := 7 |})). reflexivity.
  - apply (proj1 (proj2 (next_cnf_id_fails_when_exhausted
                    {| id := 41; verbosity := 0; mm := 7 |}))). reflexivity.
Defined.

(** C9: [btor_get_last_cnf_id_sat_mgr] dies in its assertion while the
    stored id is still the initial [1], in particular on a fresh manager;
    after at least one returned call of [btor_next_cnf_id_sat_mgr] it returns
    (the last id issued) and leaves the manager as it is. *)
Theorem get_last_cnf_id_needs_an_issued_id (mm0 v : Z) (s0 : BtorSATMgr) :
  btor_new_sat_mgr mm0 v = Returns s0 ->
  btor_get_last_cnf_id_sat_mgr (Some s0) = AssertionFailed /\
  (forall s : BtorSATMgr,
     id s = 1 -> btor_get_last_cnf_id_sat_mgr (Some s) = AssertionFailed) /\
  (forall (n : nat) (ids : list Z) (s : BtorSATMgr),
     (1 <= n)%nat -> issue_ids n s0 = Returns (ids, s) ->
     btor_get_last_cnf_id_sat_mgr (Some s) = Returns (Z.of_nat n, s)).
Proof.
  intros Hnew. apply new_sat_mgr_inv in Hnew as (-> & _ & _).
  split; [| split].
  - apply get_last_cnf_id_none_issued. cbn. lia.
  - intros s Hs. apply get_last_cnf_id_none_issued. lia.
  - intros n ids s Hn Hrun.
    apply issue_ids_inv in Hrun as (_ & Hid & _ & _ & _). cbn [id] in Hid.
    rewrite get_last_cnf_id_issued by lia. do 2 f_equal. lia.
Qed.

Lemma get_last_cnf_id_needs_an_issued_id_witness :
  btor_new_sat_mgr 7 2 = Returns {| id := 1; verbosity := 2; mm := 7 |} /\
  btor_get_last_cnf_id_sat_mgr (Some {| id := 1; verbosity := 2; mm := 7 |})
  = AssertionFailed /\
  btor_get_last_cnf_id_sat_mgr (Some {| id := 3; verbosity := 2; mm := 7 |})
  = Returns (2, {| id := 3; verbosity := 2; mm := 7 |}).
Proof.
  pose proof (get_last_cnf_id_needs_an_issued_id 7 2
                {| id := 1; verbosity := 2; mm := 7 |} eq_refl) as (Hfresh & _ & Hafter).
  split; [reflexivity |]. split; [exact Hfresh |].
  exact (Hafter 2%nat [1; 2] {| id := 3; verbosity := 2; mm := 7 |}
           (le_S 1 1 (le_n 1)) eq_refl).
Defined.

End SatManagerFacts.

(** ** The adapter calls leave the manager alone *)

Section AdapterFacts.

Import Sat.

Context {P : Type} `{PicoSAT P}.

Lemma print_verbose_msg_backend (msg : string) (w : World P) :
  exists w', print_verbose_msg (Some msg) w = Returns w' /\ backend w' = backend w.
Proof. eexists. split; reflexivity. Qed.

Lemma verbose_step_backend (b : bool) (msg : string) (w : World P) :
  exists w',
    (if b then print_verbose_msg (Some msg) w else Returns w) = Returns w' /\
    backend w' = backend w.
Proof.
  destruct b; [apply print_verbose_msg_backend |].
  exists w. split; reflexivity.
Qed.

Lemma void_call_inv (m : outcome (BtorSATMgr * World P)) r s w :
  void_call m = Returns (r, s, w) -> m = Returns (s, w).
Proof.
  unfold void_call. intros Hm.
  apply bind_returns in Hm as ([s1 w1] & -> & Hm). now inversion Hm.
Qed.

Create HintDb sat_calls.

#[local] Hint Unfold btor_init_sat btor_set_output_sat btor_enable_verbosity_sat
  btor_print_stats_sat btor_add_sat btor_dump_cnf_sat btor_assume_sat
  btor_reset_sat : sat_calls.

Ltac frame_void Hrun :=
  apply void_call_inv in Hrun;
  autounfold with sat_calls in Hrun;
  repeat match type of Hrun with
    | _ ≫= _ = Returns _ => apply bind_returns in Hrun as (? & ? & Hrun)
    end;
  now inversion Hrun.

(** Every call but [btor_next_cnf_id_sat_mgr] returns the manager it got. *)
Lemma run_call_frame (c : SatCall) (s s' : BtorSATMgr) (w w' : World P) (r : Z) :
  is_next c = false -> run_call c s w = Returns (r, s', w') -> s' = s.
Proof.
  intros Hc Hrun.
  destruct c; try discriminate Hc; cbn [run_call] in Hrun.
  - apply bind_returns in Hrun as ([i s1] & Hlast & Hrun).
    inversion Hrun; subst; clear Hrun.
    unfold btor_get_last_cnf_id_sat_mgr in Hlast.
    apply bind_returns in Hlast as (_ & _ & Hlast). now inversion Hlast.
  - frame_void Hrun.
  - frame_void Hrun.
  - frame_void Hrun.
  - frame_void Hrun.
  - frame_void Hrun.
  - frame_void Hrun.
  - frame_void Hrun.
  - unfold btor_sat_sat in Hrun.
    apply bind_returns in Hrun as (w1 & _ & Hrun). now inversion Hrun.
  - unfold btor_deref_sat in Hrun. now inversion Hrun.
  - frame_void Hrun.
  - unfold btor_changed_assignments_sat in Hrun. now inversion Hrun.
Qed.

Lemma run_call_next (s s' : BtorSATMgr) (w w' : World P) (r : Z) :
  run_call CallNextCnfId s w = Returns (r, s', w') ->
  r = id s /\ id s' = id s + 1 /\ verbosity s' = verbosity s /\ mm s' = mm s /\
  w' = w.
Proof.
  cbn [run_call]. intros Hrun.
  apply bind_returns in Hrun as ([i s1] & Hnext & Hrun).
  inversion Hrun; subst; clear Hrun.
  apply next_cnf_id_inv in Hnext as (_ & -> & ->). cbn. auto.
Qed.

(** Number of [btor_next_cnf_id_sat_mgr] calls in a session. *)
Lemma run_calls_counter (cs : list SatCall) :
  forall (s s' : BtorSATMgr) (w w' : World P),
  run_calls cs s w = Returns (s', w') ->
  id s' = id s + Z.of_nat (length (filter (fun c => is_next c = true) cs)) /\
  verbosity s' = verbosity s /\ mm s' = mm s.
Proof.
  induction cs as [| c cs IH]; intros s s' w w' Hrun.
  - cbn in Hrun. inversion Hrun; subst. cbn. split; [lia | auto].
  - cbn [run_calls] in Hrun.
    apply bind_returns in Hrun as ([[r s1] w1] & Hc & Hrun).
    apply IH in Hrun as (Hid & Hv & Hm).
    destruct (is_next c) eqn:Hnext.
    + rewrite filter_cons_True by exact Hnext.
      destruct c; try discriminate Hnext.
      apply run_call_next in Hc as (_ & Hid1 & Hv1 & Hm1 & _).
      cbn [length]. split; [lia | split; congruence].
    + rewrite filter_cons_False by (rewrite Hnext; discriminate).
      apply run_call_frame in Hc; [subst s1; auto | exact Hnext].
Qed.

(** C10: each call on a live manager other than [btor_next_cnf_id_sat_mgr]
    (get-last, init, set-output, enable-verbosity, print-stats, add, dump,
    assume, solve, deref, reset, changed-assignments) returns the manager
    with [id], [verbosity] and [mm] as they were; [btor_next_cnf_id_sat_mgr]
    changes [id] (by one) and nothing else, so over a whole session [id]
    grows by the number of its calls. *)
Theorem only_next_cnf_id_moves_the_counter :
  (forall (c : SatCall) (s s' : BtorSATMgr) (w w' : World P) (r : Z),
     run_call c s w = Returns (r, s', w') ->
     if is_next c
     then id s' = id s + 1 /\ verbosity s' = verbosity s /\ mm s' = mm s
     else s' = s) /\
  (forall (cs : list SatCall) (s s' : BtorSATMgr) (w w' : World P),
     run_calls cs s w = Returns (s', w') ->
     id s' = id s + Z.of_nat (length (filter (fun c => is_next c = true) cs)) /\
     verbosity s' = verbosity s /\ mm s' = mm s).
Proof.
  split.
  - intros c s s' w w' r Hrun. destruct (is_next c) eqn:Hnext.
    + destruct c; try discriminate Hnext.
      apply run_call_next in Hrun as (_ & Hid & Hv & Hm & _). auto.
    + exact (run_call_frame c s s' w w' r Hnext Hrun).
  - exact run_calls_counter.
Qed.

End AdapterFacts.

(** ** A session on the example backend *)

Section SatManagerExtras.

Import Sat.

Context {P : Type} `{PicoSAT P}.

Lemma only_next_cnf_id_moves_the_counter_witness :
  exists (s' : BtorSATMgr) (w' : World ToySolver),
    run_calls [CallAdd 1; CallNextCnfId; CallSat 5; CallNextCnfId; CallReset]
      {| id := 1; verbosity := 3; mm := 7 |}
      (mkWorld [] {| work := 9; answer := true |}) = Returns (s', w') /\
    id s' = 3 /\ verbosity s' = 3 /\ mm s' = 7.
Proof.
  eexists _, _. split; [reflexivity |].
  exact (proj2 (@only_next_cnf_id_moves_the_counter ToySolver toy_picosat)
           [CallAdd 1; CallNextCnfId; CallSat 5; CallNextCnfId; CallReset]
           {| id := 1; verbosity := 3; mm := 7 |} _
           (mkWorld [] {| work := 9; answer := true |}) _ eq_refl).
Defined.

End SatManagerExtras.

(** ** Sessions: what a client sees over many calls *)

Section SessionFacts.

Import Sat Session.

Context {P : Type} `{PicoSAT P}.

Lemma run_call_null_output (c : SatCall) (s : BtorSATMgr) (w : World P) :
  null_output c = true -> run_call c s w = AssertionFailed.
Proof.
  destruct c; cbn [null_output]; try discriminate; intros Hnull;
    cbn [run_call]; unfold btor_set_output_sat, btor_dump_cnf_sat;
    rewrite Hnull; reflexivity.
Qed.

Lemma run_call_get_last (s : BtorSATMgr) (w : World P) :
  run_call CallGetLastCnfId s w
  = (if 1 <? id s then Returns (id s - 1, s, w) else AssertionFailed).
Proof.
  cbn [run_call]. destruct (Z.ltb_spec 1 (id s)) as [Hgt | Hle].
  - now rewrite get_last_cnf_id_issued.
  - now rewrite get_last_cnf_id_none_issued.
Qed.

Lemma run_call_next_id (s : BtorSATMgr) (w : World P) :
  run_call CallNextCnfId s w
  = (if id s <? INT_MAX
     then Returns (id s, {| id := id s + 1; verbosity := verbosity s; mm := mm s |}, w)
     else AssertionFailed).
Proof.
  cbn [run_call]. destruct (Z.ltb_spec (id s) INT_MAX) as [Hlt | Hge].
  - now rewrite next_cnf_id_below.
  - now rewrite next_cnf_id_at_limit.
Qed.

(** What one returned call did to the world around the manager. *)
Lemma run_call_world (c : SatCall) (s s' : BtorSATMgr) (w w' : World P) (r : Z) :
  run_call c s w = Returns (r, s', w') ->
  backend w' = backend_step c (backend w) /\
  stderr w' = stderr w ++ option_list (announcement (verbosity s) c).
Proof.
  intros Hrun.
  destruct c; cbn [backend_step announcement option_list];
    rewrite ?app_nil_r.
  - rewrite run_call_next_id in Hrun.
    destruct (id s <? INT_MAX); inversion Hrun; subst; auto.
  - rewrite run_call_get_last in Hrun.
    destruct (1 <? id s); inversion Hrun; subst; auto.
  - cbn [run_call] in Hrun. apply void_call_inv in Hrun. unfold btor_init_sat in Hrun.
    destruct (3 <=? verbosity s); cbn in Hrun; inversion Hrun; subst; cbn;
      rewrite ?app_nil_r; auto.
  - cbn [run_call] in Hrun. apply void_call_inv in Hrun.
    unfold btor_set_output_sat in Hrun.
    destruct (negb (output =? 0)); cbn in Hrun; inversion Hrun; subst; auto.
  - cbn in Hrun. inversion Hrun; subst; auto.
  - cbn in Hrun. inversion Hrun; subst; auto.
  - cbn in Hrun. inversion Hrun; subst; auto.
  - cbn [run_call] in Hrun. apply void_call_inv in Hrun.
    unfold btor_dump_cnf_sat in Hrun.
    destruct (negb (output =? 0)); cbn in Hrun; inversion Hrun; subst; auto.
  - cbn in Hrun. inversion Hrun; subst; auto.
  - cbn [run_call] in Hrun. unfold btor_sat_sat in Hrun.
    destruct (0 <? verbosity s); cbn in Hrun; inversion Hrun; subst; cbn;
      rewrite ?app_nil_r; auto.
  - cbn in Hrun. inversion Hrun; subst; auto.
  - cbn [run_call] in Hrun. apply void_call_inv in Hrun. unfold btor_reset_sat in Hrun.
    destruct (3 <=? verbosity s); cbn in Hrun; inversion Hrun; subst; cbn;
      rewrite ?app_nil_r; auto.
  - cbn in Hrun. inversion Hrun; subst; auto.
Qed.

Lemma run_call_manager (c : SatCall) (s s' : BtorSATMgr) (w w' : World P) (r : Z) :
  run_call c s w = Returns (r, s', w') ->
  verbosity s' = verbosity s /\ mm s' = mm s /\
  id s' = id s + (if is_next c then 1 else 0).
Proof.
  intros Hrun. destruct (is_next c) eqn:Hnext.
  - destruct c; try discriminate Hnext.
    apply run_call_next in Hrun as (_ & Hid & Hv & Hm & _). auto.
  - apply run_call_frame in Hrun; [subst s' | exact Hnext].
    split; [reflexivity |]. split; [reflexivity | lia].
Qed.

Lemma run_call_answer (c : SatCall) (s s' : BtorSATMgr) (w w' : World P) (r : Z) :
  run_call c s w = Returns (r, s', w') ->
  is_next c = false -> c <> CallGetLastCnfId ->
  r = backend_answer c (backend w).
Proof.
  intros Hrun Hnext Hlast.
  destruct c; try discriminate Hnext; try contradiction;
    cbn [run_call backend_answer] in *;
    try (unfold void_call in Hrun;
         apply bind_returns in Hrun as ([s1 w1] & _ & Hrun); now inversion Hrun).
  - unfold btor_sat_sat in Hrun.
    destruct (verbose_step_backend (0 <? verbosity s) (line "calling PicoSAT") w)
      as (w1 & Hw1 & Hb). rewrite Hw1 in Hrun. cbn in Hrun.
    inversion Hrun; subst. now rewrite Hb.
  - cbn in Hrun. now inversion Hrun.
  - cbn in Hrun. now inversion Hrun.
Qed.

(** The trace of a session and the session itself end in the same state. *)
Lemma run_calls_results_run (cs : list SatCall) :
  forall (s s' : BtorSATMgr) (w w' : World P) (rs : list Z),
  run_calls_results cs s w = Returns (rs, s', w') ->
  run_calls cs s w = Returns (s', w') /\ length rs = length cs.
Proof.
  induction cs as [| c cs IH]; intros s s' w w' rs Hrun.
  - cbn in Hrun. inversion Hrun; subst. split; reflexivity.
  - cbn [run_calls_results] in Hrun.
    apply bind_returns in Hrun as ([[r s1] w1] & Hc & Hrun).
    apply bind_returns in Hrun as ([[rs1 s2] w2] & Hrest & Hrun).
    inversion Hrun; subst; clear Hrun.
    apply IH in Hrest as (Hrest & Hlen).
    cbn [run_calls length]. rewrite Hc. cbn. rewrite Hrest. auto.
Qed.

Lemma run_calls_results_exist (cs : list SatCall) :
  forall (s s' : BtorSATMgr) (w w' : World P),
  run_calls cs s w = Returns (s', w') ->
  exists rs, run_calls_results cs s w = Returns (rs, s', w').
Proof.
  induction cs as [| c cs IH]; intros s s' w w' Hrun.
  - cbn in Hrun. inversion Hrun; subst. exists []. reflexivity.
  - cbn [run_calls] in Hrun.
    apply bind_returns in Hrun as ([[r s1] w1] & Hc & Hrun).
    destruct (IH _ _ _ _ Hrun) as (rs & Hrs).
    exists (r :: rs). cbn [run_calls_results]. rewrite Hc. cbn. now rewrite Hrs.
Qed.

Lemma count_next_cons (c : SatCall) (cs : list SatCall) :
  count_next (c :: cs) = ((if is_next c then 1 else 0) + count_next cs)%nat.
Proof.
  unfold count_next. destruct (is_next c) eqn:Hc.
  - now rewrite filter_cons_True by exact Hc.
  - rewrite filter_cons_False; [reflexivity | rewrite Hc; discriminate].
Qed.

Lemma next_results_ids (cs : list SatCall) :
  forall (s s' : BtorSATMgr) (w w' : World P) (rs : list Z),
  run_calls_results cs s w = Returns (rs, s', w') ->
  next_results cs rs = ids_from (id s) (count_next cs) /\
  id s' = id s + Z.of_nat (count_next cs) /\
  ((1 <= count_next cs)%nat -> id s + Z.of_nat (count_next cs) <= INT_MAX).
Proof.
  induction cs as [| c cs IH]; intros s s' w w' rs Hrun.
  - cbn in Hrun. inversion Hrun; subst. cbn.
    split; [reflexivity |]. split; lia.
  - cbn [run_calls_results] in Hrun.
    apply bind_returns in Hrun as ([[r s1] w1] & Hc & Hrun).
    apply bind_returns in Hrun as ([[rs1 s2] w2] & Hrest & Hrun).
    inversion Hrun; subst; clear Hrun.
    apply IH in Hrest as (Hids & Hid & Hbound).
    rewrite count_next_cons. cbn [next_results].
    destruct (is_next c) eqn:Hnext.
    + destruct c; try discriminate Hnext.
      rewrite run_call_next_id in Hc.
      destruct (Z.ltb_spec (id s) INT_MAX) as [Hlt | Hge]; [| discriminate].
      inversion Hc; subst; clear Hc. cbn [id] in *.
      change (1 + count_next cs)%nat with (S (count_next cs)).
      rewrite ids_from_succ, Hids.
      split; [reflexivity |]. split; [lia |].
      intros _. destruct (count_next cs) as [| k]; [lia |].
      specialize (Hbound ltac:(lia)). lia.
    + apply run_call_frame in Hc; [subst s1 | exact Hnext].
      cbn [Nat.add]. auto.
Qed.

Lemma ids_from_nodup (a : Z) (n : nat) : NoDup (ids_from a n).
Proof.
  unfold ids_from. apply NoDup_fmap_2; [| apply NoDup_seq].
  intros j k Hjk. lia.
Qed.

(** In a session in which calls of every kind are mixed, the ids returned by
    [btor_next_cnf_id_sat_mgr] are the stored id and its successors, one
    after the other: they strictly increase, none is returned twice, and the
    stored id ends up raised by their number. *)
Theorem session_ids_are_consecutive (cs : list SatCall) (s s' : BtorSATMgr)
    (w w' : World P) (rs : list Z) :
  run_calls_results cs s w = Returns (rs, s', w') ->
  next_results cs rs = ids_from (id s) (count_next cs) /\
  NoDup (next_results cs rs) /\
  (forall (j k : nat) (x y : Z),
     (j < k)%nat -> next_results cs rs !! j = Some x ->
     next_results cs rs !! k = Some y -> x < y) /\
  id s' = id s + Z.of_nat (count_next cs).
Proof.
  intros Hrun. apply next_results_ids in Hrun as (Hids & Hid & _).
  rewrite Hids. split; [reflexivity |]. split; [apply ids_from_nodup |].
  split; [| exact Hid].
  intros j k x y. apply ids_from_increasing.
Qed.

Lemma run_calls_world (cs : list SatCall) :
  forall (s s' : BtorSATMgr) (w w' : World P),
  run_calls cs s w = Returns (s', w') ->
  backend w' = backend_after cs (backend w) /\
  stderr w' = stderr w ++ omap (announcement (verbosity s)) cs.
Proof.
  induction cs as [| c cs IH]; intros s s' w w' Hrun.
  - cbn in Hrun. inversion Hrun; subst. cbn. now rewrite app_nil_r.
  - cbn [run_calls] in Hrun.
    apply bind_returns in Hrun as ([[r s1] w1] & Hc & Hrun).
    pose proof (run_call_world _ _ _ _ _ _ Hc) as (Hb & He).
    pose proof (run_call_manager _ _ _ _ _ _ Hc) as (Hv & _ & _).
    apply IH in Hrun as (Hb' & He'). rewrite Hv in He'.
    split.
    + rewrite Hb', Hb. reflexivity.
    + rewrite He', He, <- app_assoc. f_equal.
      cbn [omap list_omap]. now destruct (announcement (verbosity s) c).
Qed.




Lemma backend_after_snoc (cs : list SatCall) (c : SatCall) (p : P) :
  backend_after (cs ++ [c]) p = backend_step c (backend_after cs p).
Proof. unfold backend_after. now rewrite foldl_app. Qed.

Lemma run_calls_results_answers (cs : list SatCall) :
  forall (s s' : BtorSATMgr) (w w' : World P) (rs : list Z) (k : nat) (c : SatCall),
  run_calls_results cs s w = Returns (rs, s', w') ->
  cs !! k = Some c -> is_next c = false -> c <> CallGetLastCnfId ->
  rs !! k = Some (backend_answer c (backend_after (take k cs) (backend w))).
Proof.
  induction cs as [| c0 cs IH]; intros s s' w w' rs k c Hrun Hk Hnext Hlast;
    [discriminate |].
  cbn [run_calls_results] in Hrun.
  apply bind_returns in Hrun as ([[r s1] w1] & Hc & Hrun).
  apply bind_returns in Hrun as ([[rs1 s2] w2] & Hrest & Hrun).
  inversion Hrun; subst; clear Hrun.
  destruct k as [| k].
  - cbn in Hk. inversion Hk; subst. cbn.
    f_equal. exact (run_call_answer _ _ _ _ _ _ Hc Hnext Hlast).
  - change ((c0 :: cs) !! S k) with (cs !! k) in Hk.
    change ((r :: rs1) !! S k) with (rs1 !! k).
    rewrite (IH _ _ _ _ _ _ _ Hrest Hk Hnext Hlast).
    pose proof (run_call_world _ _ _ _ _ _ Hc) as (Hb & _).
    rewrite Hb. reflexivity.
Qed.

(** The manager has no part in what PicoSAT does: the state of the backend
    after a session, and every answer the session got from it, are those of
    the PicoSAT calls alone.  Two sessions of the same calls on the same
    backend agree on both, whatever the ids and verbosities of their
    managers. *)
Theorem backend_sees_only_the_calls (cs : list SatCall) (s s' : BtorSATMgr)
    (w w' : World P) (rs : list Z) :
  run_calls_results cs s w = Returns (rs, s', w') ->
  backend w' = backend_after cs (backend w) /\
  (forall (k : nat) (c : SatCall),
     cs !! k = Some c -> is_next c = false -> c <> CallGetLastCnfId ->
     rs !! k = Some (backend_answer c (backend_after (take k cs) (backend w)))) /\
  (forall (t t' : BtorSATMgr) (u u' : World P) (rt : list Z),
     backend u = backend w ->
     run_calls_results cs t u = Returns (rt, t', u') ->
     backend u' = backend w' /\
     (forall (k : nat) (c : SatCall),
        cs !! k = Some c -> is_next c = false -> c <> CallGetLastCnfId ->
        rt !! k = rs !! k)).
Proof.
  intros Hrun.
  pose proof (run_calls_results_run _ _ _ _ _ _ Hrun) as (Hcalls & _).
  pose proof (run_calls_world _ _ _ _ _ Hcalls) as (Hb & _).
  split; [exact Hb |]. split.
  - intros k c. apply (run_calls_results_answers cs s s' w w' rs k c Hrun).
  - intros t t' u u' rt Hsame Hrun'.
    pose proof (run_calls_results_run _ _ _ _ _ _ Hrun') as (Hcalls' & _).
    pose proof (run_calls_world _ _ _ _ _ Hcalls') as (Hb' & _).
    split; [now rewrite Hb', Hb, Hsame |].
    intros k c Hk Hnext Hlast.
    rewrite (run_calls_results_answers cs t t' u u' rt k c Hrun' Hk Hnext Hlast).
    rewrite (run_calls_results_answers cs s s' w w' rs k c Hrun Hk Hnext Hlast).
    now rewrite Hsame.
Qed.

Lemma count_next_app (cs1 cs2 : list SatCall) :
  count_next (cs1 ++ cs2) = (count_next cs1 + count_next cs2)%nat.
Proof. unfold count_next. now rewrite filter_app, length_app. Qed.

(** The value an id call returned, by its place in the session. *)
Lemma id_results_by_place (cs : list SatCall) :
  forall (s s' : BtorSATMgr) (w w' : World P) (rs : list Z) (k : nat) (c : SatCall),
  run_calls_results cs s w = Returns (rs, s', w') ->
  cs !! k = Some c ->
  (c = CallNextCnfId ->
   rs !! k = Some (id s + Z.of_nat (count_next (take k cs)))) /\
  (c = CallGetLastCnfId ->
   rs !! k = Some (id s + Z.of_nat (count_next (take k cs)) - 1)).
Proof.
  induction cs as [| c0 cs IH]; intros s s' w w' rs k c Hrun Hk; [discriminate |].
  cbn [run_calls_results] in Hrun.
  apply bind_returns in Hrun as ([[r s1] w1] & Hc & Hrun).
  apply bind_returns in Hrun as ([[rs1 s2] w2] & Hrest & Hrun).
  inversion Hrun; subst; clear Hrun.
  destruct k as [| k].
  - cbn in Hk. inversion Hk; subst. cbn [take]. change (count_next []) with 0%nat.
    split; intros ->.
    + rewrite run_call_next_id in Hc. destruct (id s <? INT_MAX); [| discriminate].
      inversion Hc; subst. cbn. f_equal. lia.
    + rewrite run_call_get_last in Hc. destruct (1 <? id s); [| discriminate].
      inversion Hc; subst. cbn. f_equal. lia.
  - change ((c0 :: cs) !! S k) with (cs !! k) in Hk.
    change ((r :: rs1) !! S k) with (rs1 !! k).
    change (take (S k) (c0 :: cs)) with (c0 :: take k cs).
    rewrite count_next_cons.
    pose proof (run_call_manager _ _ _ _ _ _ Hc) as (_ & _ & Hid).
    destruct (IH _ _ _ _ _ _ _ Hrest Hk) as (Hnext & Hlast).
    split; intros Hcall.
    + rewrite (Hnext Hcall). f_equal. destruct (is_next c0); lia.
    + rewrite (Hlast Hcall). f_equal. destruct (is_next c0); lia.
Qed.

(** However many other calls come in between, [btor_get_last_cnf_id_sat_mgr]
    returns the value the latest [btor_next_cnf_id_sat_mgr] before it
    returned. *)
Theorem get_last_returns_latest_issued (pre mid post : list SatCall)
    (s s' : BtorSATMgr) (w w' : World P) (rs : list Z) :
  run_calls_results (pre ++ CallNextCnfId :: mid ++ CallGetLastCnfId :: post) s w
  = Returns (rs, s', w') ->
  count_next mid = 0%nat ->
  rs !! length pre = Some (id s + Z.of_nat (count_next pre)) /\
  rs !! (length pre + 1 + length mid)%nat = rs !! length pre.
Proof.
  intros Hrun Hmid.
  assert (Hnext : (pre ++ CallNextCnfId :: mid ++ CallGetLastCnfId :: post) !! length pre
                  = Some CallNextCnfId).
  { now rewrite list_lookup_middle. }
  assert (Hlast : (pre ++ CallNextCnfId :: mid ++ CallGetLastCnfId :: post)
                    !! (length pre + 1 + length mid)%nat
                  = Some CallGetLastCnfId).
  { replace (pre ++ CallNextCnfId :: mid ++ CallGetLastCnfId :: post)
      with ((pre ++ CallNextCnfId :: mid) ++ CallGetLastCnfId :: post)
      by (now rewrite <- app_assoc).
    apply list_lookup_middle. rewrite length_app. cbn [length]. lia. }
  destruct (id_results_by_place _ _ _ _ _ _ _ _ Hrun Hnext) as (Hn & _).
  destruct (id_results_by_place _ _ _ _ _ _ _ _ Hrun Hlast) as (_ & Hl).
  rewrite (Hn eq_refl), (Hl eq_refl). split.
  - now rewrite take_app_length.
  - f_equal. rewrite take_app_length.
    replace (pre ++ CallNextCnfId :: mid ++ CallGetLastCnfId :: post)
      with ((pre ++ CallNextCnfId :: mid) ++ CallGetLastCnfId :: post)
      by (now rewrite <- app_assoc).
    replace (length pre + 1 + length mid)%nat with (length (pre ++ CallNextCnfId :: mid))
      by (rewrite length_app; cbn [length]; lia).
    rewrite take_app_length, count_next_app, count_next_cons, Hmid. cbn [is_next]. lia.
Qed.

(** What a session that ran to its end cannot have done. *)
Lemma returned_session_steps (cs : list SatCall) :
  forall (s : BtorSATMgr) (w : World P),
  returns (run_calls cs s w) ->
  Forall (fun c => null_output c = false) cs /\
  ((1 <= count_next cs)%nat -> id s + Z.of_nat (count_next cs) <= INT_MAX) /\
  (id s <= 1 -> CallGetLastCnfId ∉ before_first_next cs).
Proof.
  induction cs as [| c cs IH]; intros s w [[s' w'] Hret].
  - split; [apply Forall_nil_2 |]. split; [cbn; lia |].
    intros _ Hin. now apply elem_of_nil in Hin.
  - cbn [run_calls] in Hret.
    apply bind_returns in Hret as ([[r s1] w1] & Hc & Hrest).
    destruct (IH s1 w1) as (Hall & Hbound & Hfirst); [eexists; exact Hrest |].
    pose proof (run_call_manager _ _ _ _ _ _ Hc) as (_ & _ & Hid).
    rewrite count_next_cons.
    assert (Hnull : null_output c = false).
    { destruct (null_output c) eqn:Hn; [| reflexivity].
      rewrite (run_call_null_output c s w Hn) in Hc. discriminate. }
    split; [apply Forall_cons_2; assumption |].
    destruct (is_next c) eqn:Hnext.
    + destruct c; try discriminate Hnext.
      rewrite run_call_next_id in Hc.
      destruct (Z.ltb_spec (id s) INT_MAX) as [Hlt | Hge]; [| discriminate].
      cbn [before_first_next is_next]. split.
      * intros _. destruct (count_next cs) as [| k] eqn:Hk; [cbn; lia |].
        specialize (Hbound ltac:(lia)). lia.
      * intros _ Hin. now apply elem_of_nil in Hin.
    + cbn [Nat.add]. split; [intros Hone; specialize (Hbound Hone); lia |].
      intros Hfresh. cbn [before_first_next]. rewrite Hnext.
      apply not_elem_of_cons. split; [| apply Hfirst; lia].
      intros <-. rewrite run_call_get_last in Hc.
      destruct (Z.ltb_spec 1 (id s)); [lia | discriminate].
Qed.

(** A session that ran to its end obeyed the protocol of the module: it
    handed over no null [FILE *], it did not ask for more ids than were
    left below [INT_MAX], and, on a manager that had issued no id, it did not
    ask for the last id before asking for a new one. *)
Theorem returned_session_obeyed_protocol (cs : list SatCall) :
  forall (s : BtorSATMgr) (w : World P),
  returns (run_calls cs s w) ->
  Forall (fun c => null_output c = false) cs /\
  ((1 <= count_next cs)%nat -> id s + Z.of_nat (count_next cs) <= INT_MAX) /\
  (id s <= 1 -> CallGetLastCnfId ∉ before_first_next cs).
Proof. exact (returned_session_steps cs). Qed.

(** The whole life of a manager.  If it was made, used and deleted without a
    failed assertion, then the memory manager was not null, the verbosity at
    least -1, no null [FILE *] was handed over, fewer than [INT_MAX] ids were
    asked for, and the last id was not asked for before the first was
    issued; and the ids issued are 1, 2, ... in the order of the calls, each
    of them positive and below [INT_MAX]. *)
Theorem lifetime_obeyed_protocol (mm0 v : Z) (cs : list SatCall) (w w' : World P)
    (rs : list Z) :
  lifetime mm0 v cs w = Returns (rs, w') ->
  mm0 <> 0 /\ -1 <= v /\
  Forall (fun c => null_output c = false) cs /\
  Z.of_nat (count_next cs) < INT_MAX /\
  (CallGetLastCnfId ∉ before_first_next cs) /\
  next_results cs rs = Z.of_nat <$> seq 1 (count_next cs) /\
  Forall (fun i => 1 <= i < INT_MAX) (next_results cs rs).
Proof.
  unfold lifetime. intros Hrun.
  apply bind_returns in Hrun as (s & Hnew & Hrun).
  apply bind_returns in Hrun as ([[rs1 s1] w1] & Hcalls & Hrun).
  cbn in Hrun. inversion Hrun; subst; clear Hrun.
  apply new_sat_mgr_inv in Hnew as (-> & Hmm & Hv).
  pose proof (run_calls_results_run _ _ _ _ _ _ Hcalls) as (Hsession & _).
  destruct (returned_session_steps cs {| id := 1; verbosity := v; mm := mm0 |} w)
    as (Hall & Hbound & Hfirst); [eexists; exact Hsession |].
  apply next_results_ids in Hcalls as (Hids & _ & _). cbn [id] in *.
  split; [exact Hmm |]. split; [exact Hv |]. split; [exact Hall |].
  split.
  { destruct (count_next cs) as [| k] eqn:Hk; [unfold INT_MAX; lia |].
    specialize (Hbound ltac:(lia)). lia. }
  split; [apply Hfirst; lia |].
  split; [now rewrite Hids, ids_from_one |].
  rewrite Hids. apply Forall_forall. intros i Hi.
  apply list_elem_of_lookup in Hi as (k & Hk).
  assert (Hlt : (k < count_next cs)%nat).
  { apply lookup_lt_Some in Hk. now rewrite ids_from_length in Hk. }
  rewrite ids_from_lookup in Hk by exact Hlt. inversion Hk; subst.
  specialize (Hbound ltac:(lia)). lia.
Qed.

End SessionFacts.

Section SessionExamples.

Import Sat Session.

Lemma session_ids_are_consecutive_witness :
  exists (rs : list Z) (s' : BtorSATMgr) (w' : World ToySolver),
    run_calls_results
      [CallAdd 1; CallNextCnfId; CallSat 5; CallNextCnfId; CallGetLastCnfId]
      {| id := 4; verbosity := 1; mm := 7 |}
      (mkWorld [] {| work := 9; answer := true |}) = Returns (rs, s', w') /\
    next_results
      [CallAdd 1; CallNextCnfId; CallSat 5; CallNextCnfId; CallGetLastCnfId] rs
    = [4; 5].
Proof.
  eexists _, _, _. split; [reflexivity |].
  exact (proj1 (@session_ids_are_consecutive ToySolver toy_picosat
                  [CallAdd 1; CallNextCnfId; CallSat 5; CallNextCnfId; CallGetLastCnfId]
                  {| id := 4; verbosity := 1; mm := 7 |} _
                  (mkWorld [] {| work := 9; answer := true |}) _ _ eq_refl)).
Defined.


Lemma backend_sees_only_the_calls_witness :
  exists (rs : list Z) (s' : BtorSATMgr) (w' : World ToySolver),
    run_calls_results [CallNextCnfId; CallAssume 1; CallSat 3]
      {| id := 1; verbosity := 3; mm := 7 |}
      (mkWorld [] {| work := 9; answer := true |}) = Returns (rs, s', w') /\
    backend w'
    = backend_after [CallNextCnfId; CallAssume 1; CallSat 3]
        {| work := 9; answer := true |}.
Proof.
  eexists _, _, _. split; [reflexivity |].
  exact (proj1 (@backend_sees_only_the_calls ToySolver toy_picosat
                  [CallNextCnfId; CallAssume 1; CallSat 3]
                  {| id := 1; verbosity := 3; mm := 7 |} _
                  (mkWorld [] {| work := 9; answer := true |}) _ _ eq_refl)).
Defined.

Lemma returned_session_obeyed_protocol_witness :
  returns (run_calls [CallAdd 1; CallNextCnfId; CallGetLastCnfId; CallSetOutput 3]
             {| id := 1; verbosity := 0; mm := 7 |}
             (mkWorld [] {| work := 9; answer := true |})) /\
  CallGetLastCnfId ∉ before_first_next
    [CallAdd 1; CallNextCnfId; CallGetLastCnfId; CallSetOutput 3].
Proof.
  assert (Hret : returns (run_calls
                   [CallAdd 1; CallNextCnfId; CallGetLastCnfId; CallSetOutput 3]
                   {| id := 1; verbosity := 0; mm := 7 |}
                   (mkWorld [] {| work := 9; answer := true |})))
    by (eexists; reflexivity).
  split; [exact Hret |].
  exact (proj2 (proj2 (@returned_session_obeyed_protocol ToySolver toy_picosat
                         [CallAdd 1; CallNextCnfId; CallGetLastCnfId; CallSetOutput 3]
                         {| id := 1; verbosity := 0; mm := 7 |}
                         (mkWorld [] {| work := 9; answer := true |}) Hret))
           (Z.le_refl 1)).
Defined.

Lemma lifetime_obeyed_protocol_witness :
  exists (rs : list Z) (w' : World ToySolver),
    lifetime 7 0 [CallInit; CallNextCnfId; CallAdd 1; CallAdd 0; CallNextCnfId; CallSat (-1)]
      (mkWorld [] {| work := 9; answer := true |}) = Returns (rs, w') /\
    next_results
      [CallInit; CallNextCnfId; CallAdd 1; CallAdd 0; CallNextCnfId; CallSat (-1)] rs
    = [1; 2].
Proof.
  eexists _, _. split; [reflexivity |].
  exact (proj1 (proj2 (proj2 (proj2 (proj2 (proj2
           (@lifetime_obeyed_protocol ToySolver toy_picosat 7 0
              [CallInit; CallNextCnfId; CallAdd 1; CallAdd 0; CallNextCnfId; CallSat (-1)]
              (mkWorld [] {| work := 9; answer := true |}) _ _ eq_refl))))))).
Defined.

Lemma get_last_returns_latest_issued_witness :
  exists (rs : list Z) (s' : BtorSATMgr) (w' : World ToySolver),
    run_calls_results
      ([CallInit; CallNextCnfId] ++ CallNextCnfId :: [CallAdd 2; CallSat 5]
         ++ CallGetLastCnfId :: [CallReset])
      {| id := 1; verbosity := 0; mm := 7 |}
      (mkWorld [] {| work := 9; answer := true |}) = Returns (rs, s', w') /\
    rs !! 2%nat = Some 2 /\ rs !! 5%nat = rs !! 2%nat.
Proof.
  eexists _, _, _. split; [reflexivity |].
  exact (@get_last_returns_latest_issued ToySolver toy_picosat
           [CallInit; CallNextCnfId] [CallAdd 2; CallSat 5] [CallReset]
           {| id := 1; verbosity := 0; mm := 7 |} _
           (mkWorld [] {| work := 9; answer := true |}) _ _ eq_refl eq_refl).
Defined.

End SessionExamples.

(** ** Status codes *)

(** C8: the status codes are UNKNOWN = 0, SAT = 10, UNSAT = 20 and
    PARSE_ERROR = 1, and no two of them are equal. *)
Theorem status_codes_fixed_and_distinct :
  BOOLECTOR_UNKNOWN = 0 /\ BOOLECTOR_SAT = 10 /\
  BOOLECTOR_UNSAT = 20 /\ BOOLECTOR_PARSE_ERROR = 1 /\
  NoDup [BOOLECTOR_UNKNOWN; BOOLECTOR_SAT; BOOLECTOR_UNSAT; BOOLECTOR_PARSE_ERROR].
Proof.
  unfold BOOLECTOR_UNKNOWN, BOOLECTOR_SAT, BOOLECTOR_UNSAT, BOOLECTOR_PARSE_ERROR.
  do 4 (split; [reflexivity |]).
  repeat (apply NoDup_cons; split; [| ]);
    try apply NoDup_nil_2; rewrite ?elem_of_cons, ?elem_of_nil; lia.
Qed.

(** ** Division by zero *)

Section DivisionFacts.

Import BitVec.

Lemma bv_ones_range (w : Z) : 0 < w -> 0 <= bv_ones w < 2 ^ w.
Proof.
  intros Hw. unfold bv_ones.
  assert (Hpow : 0 < 2 ^ w) by (apply Z.pow_pos_nonneg; lia). lia.
Qed.

Lemma bv_ones_bits (w i : Z) : 0 <= i < w -> Z.testbit (bv_ones w) i = true.
Proof.
  intros Hi. unfold bv_ones.
  replace (2 ^ w - 1) with (Z.ones w) by (rewrite Z.ones_equiv; lia).
  apply Z.ones_spec_low. exact Hi.
Qed.

Lemma bv_ones_signed (w : Z) : 0 < w -> bv_signed w (bv_ones w) = -1.
Proof.
  intros Hw. unfold bv_signed, bv_ones.
  assert (Hpow : 2 ^ w = 2 * 2 ^ (w - 1)).
  { rewrite <- Z.pow_succ_r by lia. f_equal. lia. }
  assert (Hpos : 0 < 2 ^ (w - 1)) by (apply Z.pow_pos_nonneg; lia).
  destruct (Z.ltb_spec (2 ^ w - 1) (2 ^ (w - 1))); lia.
Qed.

(** The results are bit vectors of the operands' width. *)
Lemma udiv_urem_range (w n0 n1 : Z) :
  0 < w -> 0 <= n0 < 2 ^ w -> 0 <= n1 < 2 ^ w ->
  0 <= boolector_udiv w n0 n1 < 2 ^ w /\ 0 <= boolector_urem w n0 n1 < 2 ^ w.
Proof.
  intros Hw H0 H1. unfold boolector_udiv, boolector_urem.
  destruct (Z.eqb_spec n1 0) as [-> | Hne].
  - split; [now apply bv_ones_range | exact H0].
  - assert (Hpos : 0 < n1) by lia. split.
    + split; [apply Z.div_pos; lia |].
      apply Z.le_lt_trans with n0; [| lia].
      apply Z.div_le_upper_bound; [lia | nia].
    + pose proof (Z.mod_pos_bound n0 n1 Hpos). lia.
Qed.

(** Quotient and remainder fit together for every divisor, zero included,
    in the arithmetic of the width. *)
Lemma udiv_urem_euclid (w n0 n1 : Z) :
  0 < w -> 0 <= n0 < 2 ^ w ->
  (n1 * boolector_udiv w n0 n1 + boolector_urem w n0 n1) mod 2 ^ w = n0.
Proof.
  intros Hw H0. unfold boolector_udiv, boolector_urem.
  destruct (Z.eqb_spec n1 0) as [-> | Hne].
  - rewrite Z.mul_0_l, Z.add_0_l. now apply Z.mod_small.
  - rewrite <- Z.div_mod by exact Hne. now apply Z.mod_small.
Qed.

(** C7: for operands of any width [w > 0], unsigned division by zero yields
    the bit vector with all [w] bits set, that is -1, and the unsigned
    remainder by zero yields the dividend; both are fixed values, whatever
    the dividend. *)
Theorem division_by_zero_is_fixed (w n0 : Z) :
  0 < w -> 0 <= n0 < 2 ^ w ->
  boolector_udiv w n0 0 = 2 ^ w - 1 /\
  (forall i, 0 <= i < w -> Z.testbit (boolector_udiv w n0 0) i = true) /\
  bv_signed w (boolector_udiv w n0 0) = -1 /\
  boolector_udiv w n0 0 = (-1) mod 2 ^ w /\
  boolector_urem w n0 0 = n0.
Proof.
  intros Hw H0. unfold boolector_udiv, boolector_urem. cbn [Z.eqb].
  split; [reflexivity |]. split; [intros i Hi; now apply bv_ones_bits |].
  split; [now apply bv_ones_signed |]. split; [| reflexivity].
  unfold bv_ones.
  assert (Hpow : 0 < 2 ^ w) by (apply Z.pow_pos_nonneg; lia).
  apply Z.mod_unique with (q := -1); lia.
Qed.

Lemma division_by_zero_is_fixed_witness :
  boolector_udiv 8 200 0 = 255 /\ boolector_urem 8 200 0 = 200.
Proof.
  assert (Hw : 0 < 8) by reflexivity.
  assert (Hn : 0 <= 200 < 2 ^ 8) by (split; [discriminate | reflexivity]).
  pose proof (division_by_zero_is_fixed 8 200 Hw Hn) as (Hdiv & _ & _ & _ & Hrem).
  split; [exact Hdiv | exact Hrem].
Defined.

End DivisionFacts.

(** ** Tagged references *)

Section ReferenceFacts.

Import Node.

Lemma testbit_three (n : Z) : 0 <= n -> Z.testbit 3 n = (n <? 2).
Proof.
  intros Hn. destruct (Z.ltb_spec n 2) as [Hlt | Hge].
  - assert (Hcases : n = 0 \/ n = 1) by lia.
    destruct Hcases as [-> | ->]; reflexivity.
  - apply Z.bits_above_log2; [lia | change (Z.log2 3) with 1; lia].
Qed.

Lemma testbit_tag_high (t n : Z) : 0 <= t < 4 -> 2 <= n -> Z.testbit t n = false.
Proof.
  intros Ht Hn. destruct (Z.eq_dec t 0) as [-> | Hne].
  - apply Z.bits_0.
  - apply Z.bits_above_log2; [lia |].
    assert (Hlog : Z.log2 t < 2) by (apply Z.log2_lt_pow2; lia). lia.
Qed.

Ltac bitwise n Hn :=
  apply Z.bits_inj'; intros n Hn;
  repeat first [ rewrite Z.ldiff_spec | rewrite Z.land_spec | rewrite Z.lxor_spec
               | rewrite Z.lor_spec | rewrite Z.bits_0 ];
  rewrite ?testbit_three by exact Hn.

Lemma tag_range (p : Z) : 0 <= BTOR_GET_TAG_NODE p < 4.
Proof.
  unfold BTOR_GET_TAG_NODE. change 3 with (Z.ones 2).
  rewrite Z.land_ones by lia. apply Z.mod_pos_bound. reflexivity.
Qed.

Lemma real_addr_idem (p : Z) :
  BTOR_REAL_ADDR_NODE (BTOR_REAL_ADDR_NODE p) = BTOR_REAL_ADDR_NODE p.
Proof.
  unfold BTOR_REAL_ADDR_NODE. bitwise n Hn.
  destruct (Z.testbit p n), (n <? 2); reflexivity.
Qed.

Lemma real_addr_untagged (p : Z) : BTOR_GET_TAG_NODE (BTOR_REAL_ADDR_NODE p) = 0.
Proof.
  unfold BTOR_REAL_ADDR_NODE, BTOR_GET_TAG_NODE. bitwise n Hn.
  destruct (Z.testbit p n), (n <? 2); reflexivity.
Qed.

Lemma real_addr_not_inverted (p : Z) :
  BTOR_IS_INVERTED_NODE (BTOR_REAL_ADDR_NODE p) = false.
Proof.
  unfold BTOR_IS_INVERTED_NODE, BTOR_REAL_ADDR_NODE.
  rewrite Z.ldiff_spec. change (Z.testbit 3 0) with true.
  apply andb_false_r.
Qed.

Lemma untagged_is_real (p : Z) : BTOR_GET_TAG_NODE p = 0 -> BTOR_REAL_ADDR_NODE p = p.
Proof.
  unfold BTOR_REAL_ADDR_NODE, BTOR_GET_TAG_NODE. intros Htag. bitwise n Hn.
  destruct (Z.ltb_spec n 2) as [Hlt | Hge]; [| apply andb_true_r].
  assert (Hbit : Z.testbit (Z.land p 3) n = false) by (rewrite Htag; apply Z.bits_0).
  rewrite Z.land_spec, testbit_three in Hbit by exact Hn.
  destruct (Z.ltb_spec n 2); [| lia]. rewrite andb_true_r in Hbit.
  rewrite Hbit. reflexivity.
Qed.

Lemma real_addr_lxor (p t : Z) :
  0 <= t < 4 -> BTOR_REAL_ADDR_NODE (Z.lxor p t) = BTOR_REAL_ADDR_NODE p.
Proof.
  intros Ht. unfold BTOR_REAL_ADDR_NODE. bitwise n Hn.
  destruct (Z.ltb_spec n 2) as [Hlt | Hge].
  - now rewrite !andb_false_r.
  - rewrite (testbit_tag_high t n Ht Hge). now rewrite xorb_false_r.
Qed.

Lemma tag_lxor (p t : Z) :
  0 <= t < 4 -> BTOR_GET_TAG_NODE (Z.lxor p t) = Z.lxor (BTOR_GET_TAG_NODE p) t.
Proof.
  intros Ht. unfold BTOR_GET_TAG_NODE. bitwise n Hn.
  destruct (Z.ltb_spec n 2) as [Hlt | Hge].
  - now rewrite !andb_true_r.
  - rewrite (testbit_tag_high t n Ht Hge). now rewrite !andb_false_r.
Qed.


(** Putting a tag on an untagged reference is the same as flipping its
    (clear) tag bits. *)
Lemma tag_node_untagged (a t : Z) :
  BTOR_GET_TAG_NODE a = 0 -> 0 <= t < 4 -> BTOR_TAG_NODE a t = Z.lxor a t.
Proof.
  intros Ha Ht. unfold BTOR_TAG_NODE. bitwise n Hn.
  destruct (Z.ltb_spec n 2) as [Hlt | Hge].
  - assert (Hbit : Z.testbit (Z.land a 3) n = false).
    { unfold BTOR_GET_TAG_NODE in Ha. rewrite Ha. apply Z.bits_0. }
    rewrite Z.land_spec, testbit_three in Hbit by exact Hn.
    destruct (Z.ltb_spec n 2); [| lia]. rewrite andb_true_r in Hbit.
    rewrite Hbit. reflexivity.
  - rewrite (testbit_tag_high t n Ht Hge).
    now rewrite orb_false_r, xorb_false_r.
Qed.

Lemma tag_node_real (a t : Z) :
  BTOR_GET_TAG_NODE a = 0 -> 0 <= t < 4 ->
  BTOR_REAL_ADDR_NODE (BTOR_TAG_NODE a t) = a /\
  BTOR_GET_TAG_NODE (BTOR_TAG_NODE a t) = t.
Proof.
  intros Ha Ht. rewrite tag_node_untagged by assumption. split.
  - rewrite real_addr_lxor by exact Ht. now apply untagged_is_real.
  - rewrite tag_lxor by exact Ht. rewrite Ha. apply Z.lxor_0_l.
Qed.

Lemma invert_is_tag_one (a : Z) :
  BTOR_GET_TAG_NODE a = 0 -> BTOR_INVERT_NODE a = BTOR_TAG_NODE a 1.
Proof.
  intros Ha. unfold BTOR_INVERT_NODE. symmetry. apply tag_node_untagged; [exact Ha | lia].
Qed.

Lemma invert_is_inverted (a : Z) :
  BTOR_GET_TAG_NODE a = 0 -> BTOR_IS_INVERTED_NODE (BTOR_INVERT_NODE a) = true.
Proof.
  intros Ha. unfold BTOR_IS_INVERTED_NODE, BTOR_INVERT_NODE.
  rewrite Z.lxor_spec. change (Z.testbit 1 0) with true.
  rewrite <- (untagged_is_real a Ha).
  fold (BTOR_IS_INVERTED_NODE (BTOR_REAL_ADDR_NODE a)).
  now rewrite real_addr_not_inverted.
Qed.

End ReferenceFacts.

(** ** The node store *)

Section StoreFacts.

Import Node.

Implicit Types (st : gmap Z BtorNode) (m : list (Z * Z)) (p q k d : Z).

Lemma decr_incr_refs (n : BtorNode) : decr_refs (incr_refs n) = n.
Proof. destruct n as [r kids]. unfold decr_refs, incr_refs. cbn. now rewrite Pos.pred_succ. Qed.

Lemma alive_acquired st p q : alive (acquired p st) q <-> alive st q.
Proof. unfold alive, acquired. apply lookup_alter_is_Some. Qed.


Lemma acquired_same_node st p q :
  BTOR_REAL_ADDR_NODE p = BTOR_REAL_ADDR_NODE q -> acquired p st = acquired q st.
Proof. unfold acquired. now intros ->. Qed.



Lemma copy_exp_alive st p : alive st p -> btor_copy_exp st p = Returns (acquired p st).
Proof. intros [n Hn]. unfold btor_copy_exp. now rewrite Hn. Qed.

Lemma copy_exp_inv st st' p :
  btor_copy_exp st p = Returns st' -> alive st p /\ st' = acquired p st.
Proof.
  unfold btor_copy_exp, alive. destruct (st !! BTOR_REAL_ADDR_NODE p) as [n |];
    intros Hc; inversion Hc. split; [eexists; reflexivity | reflexivity].
Qed.

(** Giving back a reference that was acquired on a live node only undoes the
    increment: the count cannot reach zero. *)
Lemma release_acquired st p q :
  alive st q -> BTOR_REAL_ADDR_NODE p = BTOR_REAL_ADDR_NODE q ->
  btor_release_exp (acquired q st) p = Returns st.
Proof.
  intros [n Hn] Hpq. unfold btor_release_exp. cbn [release_loop].
  rewrite Hpq.
  assert (Hlook : acquired q st !! BTOR_REAL_ADDR_NODE q = Some (incr_refs n)).
  { unfold acquired. now rewrite lookup_alter_eq, Hn. }
  rewrite Hlook.
  assert (Hne : (refs (incr_refs n) =? 1)%positive = false).
  { apply Pos.eqb_neq. cbn. apply Pos.succ_not_1. }
  rewrite Hne.
  destruct (total_refs (acquired q st)); cbn [release_loop]; f_equal; unfold acquired;
  (apply map_eq; intros i;
   destruct (decide (BTOR_REAL_ADDR_NODE q = i)) as [<- | Hother];
   [ rewrite !lookup_alter_eq, Hn; cbn [fmap option_fmap option_map];
     now rewrite decr_incr_refs
   | now rewrite !lookup_alter_ne by exact Hother ]).
Qed.





End StoreFacts.

(** ** The release loop ends *)

Section ReleaseFacts.

Import Node.

Implicit Types (st : gmap Z BtorNode).

Lemma total_refs_delete st k n :
  st !! k = Some n ->
  total_refs st = (Pos.to_nat (refs n) + total_refs (delete k st))%nat.
Proof.
  intros Hk. unfold total_refs.
  apply (map_fold_delete_L (fun _ n acc => (Pos.to_nat (refs n) + acc)%nat)); [| exact Hk].
  intros; lia.
Qed.

Lemma total_refs_alter st k n (f : BtorNode -> BtorNode) :
  st !! k = Some n ->
  total_refs (alter f k st) = (Pos.to_nat (refs (f n)) + total_refs (delete k st))%nat.
Proof.
  intros Hk.
  assert (Halter : alter f k st = <[k := f n]> (delete k st)).
  { apply map_eq. intros i. destruct (decide (k = i)) as [<- | Hne].
    - now rewrite lookup_alter_eq, lookup_insert_eq, Hk.
    - now rewrite lookup_alter_ne, lookup_insert_ne, lookup_delete_ne by exact Hne. }
  rewrite Halter. unfold total_refs.
  apply (map_fold_insert_L (fun _ n acc => (Pos.to_nat (refs n) + acc)%nat)).
  - intros; lia.
  - apply lookup_delete_eq.
Qed.

(** Each turn gives one reference back, so a budget above the number of
    references held is never used up. *)
Lemma release_loop_ends (fuel : nat) :
  forall (work : list Z) st,
  (total_refs st < fuel)%nat -> release_loop fuel work st <> OutOfFuel.
Proof.
  induction fuel as [| fuel IH]; intros work st Hfuel; [lia |].
  destruct work as [| p rest]; cbn [release_loop]; [discriminate |].
  destruct (st !! BTOR_REAL_ADDR_NODE p) as [n |] eqn:Hp; [| discriminate].
  pose proof (total_refs_delete st _ n Hp) as Htotal.
  destruct (Pos.eqb_spec (refs n) 1) as [Hone | Hmore].
  - apply IH. lia.
  - apply IH. rewrite (total_refs_alter st _ n decr_refs Hp). cbn [decr_refs refs].
    assert (Hpred : (Pos.to_nat (Pos.pred (refs n)) < Pos.to_nat (refs n))%nat).
    { rewrite Pos2Nat.inj_pred by lia. lia. }
    lia.
Qed.

Lemma release_exp_ends st p : btor_release_exp st p <> OutOfFuel.
Proof. unfold btor_release_exp. apply release_loop_ends. lia. Qed.

End ReleaseFacts.

(** ** Node maps *)

Section NodeMapFacts.

Import Node.

Implicit Types (st : gmap Z BtorNode) (m : list (Z * Z)) (p q k d : Z).

Lemma find_set_same m k d : find_bucket (set_bucket m k d) k = Some d.
Proof.
  induction m as [| [k' d'] m IH]; cbn [set_bucket find_bucket].
  - now rewrite Z.eqb_refl.
  - destruct (Z.eqb_spec k' k) as [-> | Hne]; cbn [find_bucket].
    + now rewrite Z.eqb_refl.
    + destruct (Z.eqb_spec k' k); [contradiction | exact IH].
Qed.

Lemma find_set_other m k k' d :
  k' <> k -> find_bucket (set_bucket m k d) k' = find_bucket m k'.
Proof.
  intros Hne. induction m as [| [k0 d0] m IH]; cbn [set_bucket find_bucket].
  - destruct (Z.eqb_spec k k'); [congruence | reflexivity].
  - destruct (Z.eqb_spec k0 k) as [-> | Hk0]; cbn [find_bucket].
    + destruct (Z.eqb_spec k k'); [congruence | reflexivity].
    + destruct (Z.eqb_spec k0 k'); [reflexivity | exact IH].
Qed.

Lemma set_bucket_fresh m k d :
  find_bucket m k = None -> set_bucket m k d = m ++ [(k, d)].
Proof.
  induction m as [| [k' d'] m IH]; cbn [set_bucket find_bucket app]; [reflexivity |].
  destruct (Z.eqb_spec k' k); [discriminate |].
  intros Hnone. now rewrite IH.
Qed.

Lemma set_bucket_length m k d :
  length (set_bucket m k d)
  = if find_bucket m k is Some _ then length m else S (length m).
Proof.
  induction m as [| [k' d'] m IH]; cbn [set_bucket find_bucket length]; [reflexivity |].
  destruct (Z.eqb_spec k' k); cbn [length]; [reflexivity |].
  rewrite IH. now destruct (find_bucket m k).
Qed.

Lemma find_bucket_elem m k d : find_bucket m k = Some d -> (k, d) ∈ m.
Proof.
  induction m as [| [k' d'] m IH]; cbn [find_bucket]; [discriminate |].
  destruct (Z.eqb_spec k' k) as [-> | Hne].
  - intros Hd. inversion Hd. apply list_elem_of_here.
  - intros Hd. apply list_elem_of_further. now apply IH.
Qed.

Lemma find_bucket_none m k : find_bucket m k = None -> forall d, (k, d) ∉ m.
Proof.
  induction m as [| [k' d'] m IH]; cbn [find_bucket]; intros Hnone d Hin.
  - now apply elem_of_nil in Hin.
  - destruct (Z.eqb_spec k' k) as [-> | Hne]; [discriminate |].
    apply elem_of_cons in Hin as [Heq | Hin]; [congruence |].
    exact (IH Hnone d Hin).
Qed.

Lemma set_bucket_elem m k d b :
  b ∈ set_bucket m k d -> b = (k, d) \/ b ∈ m.
Proof.
  induction m as [| [k' d'] m IH]; cbn [set_bucket]; intros Hin.
  - apply list_elem_of_singleton in Hin. now left.
  - destruct (Z.eqb_spec k' k) as [-> | Hne].
    + apply elem_of_cons in Hin as [-> | Hin]; [now left |].
      right. now apply list_elem_of_further.
    + apply elem_of_cons in Hin as [-> | Hin]; [right; apply list_elem_of_here |].
      destruct (IH Hin) as [-> | Hm]; [now left |].
      right. now apply list_elem_of_further.
Qed.


Lemma map_node_inv st st' m m' src dst :
  btor_map_node st m src dst = Returns (st', m') ->
  BTOR_REAL_ADDR_NODE src <> 0 /\ BTOR_REAL_ADDR_NODE dst <> 0 /\
  m' = set_bucket m (BTOR_REAL_ADDR_NODE src) (Z.lxor dst (BTOR_GET_TAG_NODE src)).
Proof.
  unfold btor_map_node. intros Hmap.
  destruct (Z.eqb_spec (BTOR_REAL_ADDR_NODE src) 0) as [Hs | Hs]; [discriminate |].
  destruct (Z.eqb_spec (BTOR_REAL_ADDR_NODE dst) 0) as [Hd | Hd]; [discriminate |].
  cbn [negb assert mbind outcome_bind] in Hmap.
  split; [exact Hs |]. split; [exact Hd |].
  apply bind_returns in Hmap as (st1 & _ & Hmap).
  apply bind_returns in Hmap as (st2 & _ & Hmap).
  destruct (find_bucket m (BTOR_REAL_ADDR_NODE src)).
  - apply bind_returns in Hmap as (st3 & _ & Hmap). now inversion Hmap.
  - now inversion Hmap.
Qed.


(** Mapping another node does not disturb the entry. *)
Lemma mapped_node_other st st' m m' src dst p :
  btor_map_node st m src dst = Returns (st', m') ->
  BTOR_REAL_ADDR_NODE p <> BTOR_REAL_ADDR_NODE src ->
  btor_mapped_node m' p = btor_mapped_node m p.
Proof.
  intros Hmap Hne. apply map_node_inv in Hmap as (_ & _ & ->).
  unfold btor_mapped_node. now rewrite find_set_other.
Qed.

(** Tags go through a look-up. *)
Lemma mapped_node_tag m p t :
  0 <= t < 4 ->
  btor_mapped_node m (Z.lxor p t) = (fun d => Z.lxor d t) <$> btor_mapped_node m p.
Proof.
  intros Ht. unfold btor_mapped_node.
  rewrite real_addr_lxor, tag_lxor by exact Ht.
  destruct (find_bucket m (BTOR_REAL_ADDR_NODE p)); [| reflexivity].
  cbn. now rewrite Z.lxor_assoc.
Qed.

Lemma untagged_keys_set m p d :
  untagged_keys m -> untagged_keys (set_bucket m (BTOR_REAL_ADDR_NODE p) d).
Proof.
  unfold untagged_keys. rewrite !Forall_forall. intros Hm b Hb.
  apply set_bucket_elem in Hb as [-> | Hb]; [apply real_addr_untagged | now apply Hm].
Qed.

Lemma untagged_keys_map_node st st' m m' src dst :
  btor_map_node st m src dst = Returns (st', m') ->
  untagged_keys m -> untagged_keys m'.
Proof.
  intros Hmap Hm. apply map_node_inv in Hmap as (_ & _ & ->).
  now apply untagged_keys_set.
Qed.

Lemma untagged_keys_map_nodes pairs :
  forall st st' m m',
  map_nodes st m pairs = Returns (st', m') -> untagged_keys m -> untagged_keys m'.
Proof.
  induction pairs as [| [src dst] pairs IH]; intros st st' m m' Hrun Hm.
  - cbn in Hrun. now inversion Hrun; subst.
  - cbn [map_nodes] in Hrun.
    apply bind_returns in Hrun as ([st1 m1] & Hmap & Hrun).
    apply (IH _ _ _ _ Hrun). exact (untagged_keys_map_node _ _ _ _ _ _ Hmap Hm).
Qed.

(** One call adds at most one bucket: none when the node of [src] has one. *)
Lemma count_after_map_node st st' m m' src dst :
  btor_map_node st m src dst = Returns (st', m') ->
  BTOR_COUNT_MAP (Some m')
  = Returns (if find_bucket m (BTOR_REAL_ADDR_NODE src) is Some _
             then Z.of_nat (length m) else Z.of_nat (length m) + 1).
Proof.
  intros Hmap. apply map_node_inv in Hmap as (_ & _ & ->).
  unfold BTOR_COUNT_MAP. rewrite set_bucket_length.
  destruct (find_bucket m (BTOR_REAL_ADDR_NODE src)); f_equal; lia.
Qed.








End NodeMapFacts.

(** ** What a map owns, and the round trip *)

Section NodeMapClaims.

Import Node.

Implicit Types (st : gmap Z BtorNode) (m : list (Z * Z)) (p q k d : Z).








End NodeMapClaims.

(** ** The substitution traversal *)

Section TraversalFacts.

Import Node.

Context {St : Type}.
Variable rebuild : gmap Z BtorNode -> Z -> list Z -> outcome (Z * gmap Z BtorNode).

Implicit Types (st : gmap Z BtorNode) (m : list (Z * Z)) (t : @Traversal St).

Lemma visit_done (mapper : @BtorNodeMapper St) t :
  t_stack t = [] -> visit rebuild mapper t = t.
Proof. intros Hdone. unfold visit. rewrite Hdone. now destruct (t_status t). Qed.

Lemma traverse_done (mapper : @BtorNodeMapper St) fuel t :
  t_stack t = [] -> traverse rebuild fuel mapper t = t.
Proof.
  induction fuel as [| fuel IH]; intros Hdone; [reflexivity |].
  cbn [traverse]. rewrite visit_done by exact Hdone. now apply IH.
Qed.

Lemma mapped_node_real m p :
  btor_mapped_node m (BTOR_REAL_ADDR_NODE p) = find_bucket m (BTOR_REAL_ADDR_NODE p).
Proof.
  unfold btor_mapped_node. rewrite real_addr_idem, real_addr_untagged.
  destruct (find_bucket m (BTOR_REAL_ADDR_NODE p)); [| reflexivity].
  now rewrite Z.lxor_0_r.
Qed.

Lemma map_node_fresh st m src dst :
  find_bucket m (BTOR_REAL_ADDR_NODE src) = None ->
  BTOR_REAL_ADDR_NODE src <> 0 -> BTOR_REAL_ADDR_NODE dst <> 0 ->
  alive st src -> alive st dst ->
  btor_map_node st m src dst
  = Returns (acquired dst (acquired src st),
             m ++ [(BTOR_REAL_ADDR_NODE src, Z.lxor dst (BTOR_GET_TAG_NODE src))]).
Proof.
  intros Hfind Hs Hd Has Had. unfold btor_map_node.
  rewrite (assert_true (negb (BTOR_REAL_ADDR_NODE src =? 0)))
    by (apply negb_true_iff; now apply Z.eqb_neq).
  rewrite (assert_true (negb (BTOR_REAL_ADDR_NODE dst =? 0)))
    by (apply negb_true_iff; now apply Z.eqb_neq).
  cbn [mbind outcome_bind].
  rewrite copy_exp_alive by exact Has. cbn [mbind outcome_bind].
  rewrite copy_exp_alive by now apply alive_acquired.
  cbn [mbind outcome_bind]. rewrite Hfind. now rewrite set_bucket_fresh.
Qed.

Lemma visit_mapped_root (mapper : @BtorNodeMapper St) st m state root d :
  find_bucket m (BTOR_REAL_ADDR_NODE root) = Some d ->
  visit rebuild mapper (start st m state root)
  = {| t_store := st; t_map := m; t_state := state; t_stack := [];
       t_status := Returns tt |}.
Proof.
  intros Hfind. unfold visit, start. cbn [t_status t_stack t_map t_store t_state].
  now rewrite mapped_node_real, Hfind.
Qed.

Lemma visit_mapper_root (mapper : @BtorNodeMapper St) st m state root
    mapped st1 state1 :
  find_bucket m (BTOR_REAL_ADDR_NODE root) = None ->
  mapper st state (BTOR_REAL_ADDR_NODE root) = (Some mapped, st1, state1) ->
  BTOR_REAL_ADDR_NODE root <> 0 -> BTOR_REAL_ADDR_NODE mapped <> 0 ->
  alive st1 root -> alive st1 mapped ->
  visit rebuild mapper (start st m state root)
  = {| t_store := acquired root st1;
       t_map := m ++ [(BTOR_REAL_ADDR_NODE root, mapped)];
       t_state := state1; t_stack := []; t_status := Returns tt |}.
Proof.
  intros Hfind Hmapper Hroot Hmapped Har Ham.
  unfold visit, start. cbn [t_status t_stack t_map t_store t_state].
  rewrite mapped_node_real, Hfind, Hmapper. cbn [fst snd].
  unfold cache_result. cbn [t_status t_stack t_map t_store t_state].
  rewrite map_node_fresh;
    [| now rewrite real_addr_idem | now rewrite real_addr_idem | exact Hmapped
     | unfold alive in *; now rewrite real_addr_idem | exact Ham ].
  rewrite real_addr_idem, real_addr_untagged, Z.lxor_0_r.
  rewrite release_acquired; [| now apply alive_acquired | reflexivity].
  f_equal. apply acquired_same_node, real_addr_idem.
Qed.

(** A root the map already has: one turn, and the result is the stored
    destination with the tag of the root, with one more reference. *)
Lemma substitute_mapped_root (mapper : @BtorNodeMapper St) fuel st m state root d :
  (1 <= fuel)%nat ->
  find_bucket m (BTOR_REAL_ADDR_NODE root) = Some d ->
  alive st d ->
  btor_non_recursive_extended_substitute_node rebuild fuel st m state mapper root
  = Returns (Z.lxor d (BTOR_GET_TAG_NODE root), acquired d st, m, state).
Proof.
  intros Hfuel Hfind Hd. destruct fuel as [| fuel]; [lia |].
  unfold btor_non_recursive_extended_substitute_node.
  cbn [traverse]. rewrite (visit_mapped_root mapper st m state root d Hfind).
  rewrite traverse_done by reflexivity.
  cbn [t_status t_stack t_map t_store t_state].
  unfold btor_mapped_node. rewrite Hfind.
  rewrite copy_exp_alive.
  - cbn [mbind outcome_bind].
    now rewrite (acquired_same_node st (Z.lxor d (BTOR_GET_TAG_NODE root)) d)
      by (apply real_addr_lxor, tag_range).
  - unfold alive in *. now rewrite real_addr_lxor by apply tag_range.
Qed.

(** A root the map does not have and the mapper maps: one turn, in which the
    replacement is cached under the untagged root; the result is the
    replacement with the tag of the root. *)
Lemma substitute_by_mapper (mapper : @BtorNodeMapper St) fuel st m state root
    mapped st1 state1 :
  (1 <= fuel)%nat ->
  btor_mapped_node m root = None ->
  mapper st state (BTOR_REAL_ADDR_NODE root) = (Some mapped, st1, state1) ->
  BTOR_REAL_ADDR_NODE root <> 0 -> BTOR_REAL_ADDR_NODE mapped <> 0 ->
  alive st1 root -> alive st1 mapped ->
  btor_non_recursive_extended_substitute_node rebuild fuel st m state mapper root
  = Returns (Z.lxor mapped (BTOR_GET_TAG_NODE root),
             acquired mapped (acquired root st1),
             m ++ [(BTOR_REAL_ADDR_NODE root, mapped)], state1).
Proof.
  intros Hfuel Hnone Hmapper Hroot Hmapped Har Ham.
  destruct fuel as [| fuel]; [lia |].
  assert (Hfind : find_bucket m (BTOR_REAL_ADDR_NODE root) = None).
  { unfold btor_mapped_node in Hnone.
    now destruct (find_bucket m (BTOR_REAL_ADDR_NODE root)). }
  unfold btor_non_recursive_extended_substitute_node.
  cbn [traverse].
  rewrite (visit_mapper_root mapper st m state root mapped st1 state1
             Hfind Hmapper Hroot Hmapped Har Ham).
  rewrite traverse_done by reflexivity.
  cbn [t_status t_stack t_map t_store t_state].
  unfold btor_mapped_node.
  assert (Hnew : find_bucket (m ++ [(BTOR_REAL_ADDR_NODE root, mapped)])
                   (BTOR_REAL_ADDR_NODE root) = Some mapped).
  { rewrite <- (set_bucket_fresh m _ mapped Hfind). apply find_set_same. }
  rewrite Hnew. rewrite copy_exp_alive.
  - cbn [mbind outcome_bind].
    now rewrite (acquired_same_node _ (Z.lxor mapped (BTOR_GET_TAG_NODE root)) mapped)
      by (apply real_addr_lxor, tag_range).
  - apply alive_acquired. unfold alive in *.
    now rewrite real_addr_lxor by apply tag_range.
Qed.

End TraversalFacts.

(** ** Mappers and tags *)

Section MapperFacts.

Import Node.

Context {St : Type}.
Variable rebuild : gmap Z BtorNode -> Z -> list Z -> outcome (Z * gmap Z BtorNode).

Lemma cache_result_state {S' : Type} (t : @Traversal S') node mapped rest :
  t_state (cache_result t node mapped rest) = t_state t.
Proof.
  unfold cache_result.
  destruct (btor_map_node (t_store t) (t_map t) node mapped) as [[st1 m1] | |];
    [| reflexivity | reflexivity].
  destruct (btor_release_exp st1 mapped); reflexivity.
Qed.

(** A turn of the loop leaves the mapper's state alone or calls the mapper,
    once, on an untagged node. *)
Lemma visit_state {S' : Type} (mapper : @BtorNodeMapper S') (t : @Traversal S') :
  t_state (visit rebuild mapper t) = t_state t \/
  exists p, t_state (visit rebuild mapper t)
            = (mapper (t_store t) (t_state t) (BTOR_REAL_ADDR_NODE p)).2.
Proof.
  unfold visit. destruct (t_status t); auto.
  destruct (t_stack t) as [| [p v] rest]; auto.
  destruct (btor_mapped_node (t_map t) (BTOR_REAL_ADDR_NODE p)); auto.
  destruct v.
  - right. exists p.
    destruct (mapper (t_store t) (t_state t) (BTOR_REAL_ADDR_NODE p))
      as [[r st1] state1]. cbn [fst snd t_store t_map t_state].
    destruct r as [mapped |]; [now rewrite cache_result_state |].
    now destruct (st1 !! BTOR_REAL_ADDR_NODE p).
  - left. destruct (t_store t !! BTOR_REAL_ADDR_NODE p); [| reflexivity].
    destruct (mapM (btor_mapped_node (t_map t)) (e b)); [| reflexivity].
    destruct (rebuild (t_store t) (BTOR_REAL_ADDR_NODE p) l) as [[res st1] | |];
      [now rewrite cache_result_state | reflexivity | reflexivity].
Qed.

Lemma traverse_record_untagged (mapper : @BtorNodeMapper St) fuel :
  forall t : @Traversal (list Z * St),
  Forall (fun node => BTOR_IS_INVERTED_NODE node = false /\ BTOR_GET_TAG_NODE node = 0)
    (t_state t).1 ->
  Forall (fun node => BTOR_IS_INVERTED_NODE node = false /\ BTOR_GET_TAG_NODE node = 0)
    (t_state (traverse rebuild fuel (recording mapper) t)).1.
Proof.
  induction fuel as [| fuel IH]; intros t Ht; [exact Ht |].
  cbn [traverse]. apply IH.
  destruct (visit_state (recording mapper) t) as [-> | [p ->]]; [exact Ht |].
  unfold recording. cbn [fst snd].
  apply Forall_app. split; [exact Ht |].
  apply Forall_singleton. split; [apply real_addr_not_inverted | apply real_addr_untagged].
Qed.

Lemma forget_record_cache (t : @Traversal (list Z * St)) node mapped rest :
  forget_record (cache_result t node mapped rest)
  = cache_result (forget_record t) node mapped rest.
Proof.
  unfold cache_result, forget_record. cbn [t_store t_map t_state t_stack t_status].
  destruct (btor_map_node (t_store t) (t_map t) node mapped) as [[st1 m1] | |];
    [| reflexivity | reflexivity].
  destruct (btor_release_exp st1 mapped); reflexivity.
Qed.

(** Recording changes nothing but the record. *)
Lemma visit_recording (mapper : @BtorNodeMapper St) (t : @Traversal (list Z * St)) :
  forget_record (visit rebuild (recording mapper) t)
  = visit rebuild mapper (forget_record t).
Proof.
  unfold visit. cbn [forget_record t_store t_map t_state t_stack t_status].
  destruct (t_status t) as [[] | |]; try reflexivity.
  destruct (t_stack t) as [| [p v] rest] eqn:Hstack;
    [unfold forget_record; now rewrite Hstack |].
  destruct (btor_mapped_node (t_map t) (BTOR_REAL_ADDR_NODE p)); [reflexivity |].
  destruct v.
  - unfold recording. cbn [fst snd].
    destruct (mapper (t_store t) (t_state t).2 (BTOR_REAL_ADDR_NODE p))
      as [[r st1] state1]. cbn [fst snd t_store t_map t_state].
    destruct r as [mapped |]; [now rewrite forget_record_cache |].
    destruct (st1 !! BTOR_REAL_ADDR_NODE p); reflexivity.
  - destruct (t_store t !! BTOR_REAL_ADDR_NODE p);
      [| unfold forget_record, stopped; cbn; rewrite ?Hstack; reflexivity].
    destruct (mapM (btor_mapped_node (t_map t)) (e b));
      [| unfold forget_record, stopped; cbn; rewrite ?Hstack; reflexivity].
    destruct (rebuild (t_store t) (BTOR_REAL_ADDR_NODE p) l) as [[res st1] | |];
      [ rewrite forget_record_cache; unfold forget_record; cbn; rewrite ?Hstack; reflexivity
      | unfold forget_record, stopped; cbn; rewrite ?Hstack; reflexivity
      | unfold forget_record, stopped; cbn; rewrite ?Hstack; reflexivity ].
Qed.

Lemma traverse_recording (mapper : @BtorNodeMapper St) fuel :
  forall t : @Traversal (list Z * St),
  forget_record (traverse rebuild fuel (recording mapper) t)
  = traverse rebuild fuel mapper (forget_record t).
Proof.
  induction fuel as [| fuel IH]; intros t; [reflexivity |].
  cbn [traverse]. now rewrite IH, visit_recording.
Qed.

End MapperFacts.

(** ** Tag preservation and the mapper contract *)

Section SubstitutionClaims.

Import Node.

Implicit Types (st : gmap Z BtorNode) (m : list (Z * Z)).

Lemma untagged_keys_find m k d :
  untagged_keys m -> find_bucket m k = Some d -> BTOR_GET_TAG_NODE k = 0.
Proof.
  intros Hm Hfind. apply find_bucket_elem in Hfind.
  unfold untagged_keys in Hm. rewrite Forall_forall in Hm.
  exact (Hm (k, d) Hfind).
Qed.

(** C3: in a map in which the node [a] is mapped to the node [b], the
    reference to [a] with tag [t] (any of 0..3) is mapped to the reference to
    [b] with the same tag, although no bucket is stored under the tagged
    reference; and substituting the tagged (in particular: the inverted)
    reference yields the equally tagged (inverted) reference to [b], with a
    reference acquired on [b]. *)
Theorem mapping_carries_tags m (a b t : Z) :
  BTOR_GET_TAG_NODE a = 0 -> BTOR_GET_TAG_NODE b = 0 -> 0 <= t < 4 ->
  untagged_keys m ->
  btor_mapped_node m a = Some b ->
  btor_mapped_node m (BTOR_TAG_NODE a t) = Some (BTOR_TAG_NODE b t) /\
  (t <> 0 -> find_bucket m (BTOR_TAG_NODE a t) = None) /\
  btor_mapped_node m (BTOR_INVERT_NODE a) = Some (BTOR_INVERT_NODE b) /\
  (forall rebuild (fuel : nat) st,
     (1 <= fuel)%nat -> alive st b ->
     btor_non_recursive_substitute_node rebuild fuel st m (BTOR_TAG_NODE a t)
     = Returns (BTOR_TAG_NODE b t, acquired b st, m) /\
     btor_non_recursive_substitute_node rebuild fuel st m (BTOR_INVERT_NODE a)
     = Returns (BTOR_INVERT_NODE b, acquired b st, m)).
Proof.
  intros Ha Hb Ht Hkeys Hab.
  assert (Hfind : find_bucket m a = Some b).
  { rewrite <- (untagged_is_real a Ha), <- mapped_node_real.
    now rewrite (untagged_is_real a Ha). }
  assert (Htagged : forall u, 0 <= u < 4 ->
            btor_mapped_node m (BTOR_TAG_NODE a u) = Some (BTOR_TAG_NODE b u)).
  { intros u Hu. rewrite !tag_node_untagged by assumption.
    rewrite mapped_node_tag by exact Hu. now rewrite Hab. }
  assert (Hsubst : forall rebuild (fuel : nat) st u,
            0 <= u < 4 -> (1 <= fuel)%nat -> alive st b ->
            btor_non_recursive_substitute_node rebuild fuel st m (BTOR_TAG_NODE a u)
            = Returns (BTOR_TAG_NODE b u, acquired b st, m)).
  { intros rebuild fuel st u Hu Hfuel Halive.
    unfold btor_non_recursive_substitute_node.
    destruct (tag_node_real a u Ha Hu) as (Hreal & Htag).
    rewrite (substitute_mapped_root rebuild never_map fuel st m tt
               (BTOR_TAG_NODE a u) b Hfuel);
      [| now rewrite Hreal | exact Halive].
    cbn [mbind outcome_bind fst]. rewrite Htag.
    now rewrite (tag_node_untagged b u Hb Hu). }
  split; [now apply Htagged |]. split.
  - intros Hne.
    destruct (find_bucket m (BTOR_TAG_NODE a t)) as [d |] eqn:Hd; [| reflexivity].
    apply (untagged_keys_find m _ d Hkeys) in Hd.
    rewrite (proj2 (tag_node_real a t Ha Ht)) in Hd. contradiction.
  - split.
    + rewrite !invert_is_tag_one by assumption. apply Htagged. lia.
    + intros rebuild fuel st Hfuel Halive. split.
      * now apply Hsubst.
      * rewrite !invert_is_tag_one by assumption. apply Hsubst; [lia | | ]; assumption.
Qed.

Lemma mapping_carries_tags_witness :
  btor_mapped_node [(4, 8)] 4 = Some 8 /\
  btor_mapped_node [(4, 8)] 5 = Some 9 /\
  btor_non_recursive_substitute_node rebuild_same 3 demo_store [(4, 8)] 5
  = Returns (9, acquired 8 demo_store, [(4, 8)]).
Proof.
  assert (Hkeys : untagged_keys [(4, 8)]).
  { apply Forall_cons_2; [reflexivity | apply Forall_nil_2]. }
  assert (Halive : alive demo_store 8) by (eexists; reflexivity).
  assert (Hrange : 0 <= 1 < 4) by (split; [discriminate | reflexivity]).
  pose proof (mapping_carries_tags [(4, 8)] 4 8 1 eq_refl eq_refl Hrange Hkeys eq_refl)
    as (Hlook & _ & _ & Hsubst).
  split; [reflexivity |]. split; [exact Hlook |].
  exact (proj1 (Hsubst rebuild_same 3%nat demo_store (le_S 1 2 (le_S 1 1 (le_n 1))) Halive)).
Defined.

(** C4: in every traversal, however long it runs and however it ends, each
    node the mapper has been called with is untagged (so not inverted); the
    recording changes nothing else.  When the mapper maps the node of the
    caller's root, it is called with the untagged root, and the result is
    its replacement with the tag of the root put back. *)
Theorem mapper_only_sees_untagged_nodes {St : Type}
    (rebuild : gmap Z BtorNode -> Z -> list Z -> outcome (Z * gmap Z BtorNode))
    (mapper : @BtorNodeMapper St) :
  (forall (fuel : nat) st m (state : St) (root : Z),
     Forall (fun node => BTOR_IS_INVERTED_NODE node = false /\ BTOR_GET_TAG_NODE node = 0)
       (t_state (traverse rebuild fuel (recording mapper) (start st m ([], state) root))).1 /\
     forget_record (traverse rebuild fuel (recording mapper) (start st m ([], state) root))
     = traverse rebuild fuel mapper (start st m state root)) /\
  (forall (fuel : nat) st m (state : St) (root mapped : Z) st1 (state1 : St),
     (1 <= fuel)%nat ->
     btor_mapped_node m root = None ->
     mapper st state (BTOR_REAL_ADDR_NODE root) = (Some mapped, st1, state1) ->
     BTOR_REAL_ADDR_NODE root <> 0 -> BTOR_REAL_ADDR_NODE mapped <> 0 ->
     alive st1 root -> alive st1 mapped ->
     btor_non_recursive_extended_substitute_node rebuild fuel st m ([], state)
       (recording mapper) root
     = Returns (Z.lxor mapped (BTOR_GET_TAG_NODE root),
                acquired mapped (acquired root st1),
                m ++ [(BTOR_REAL_ADDR_NODE root, mapped)],
                ([BTOR_REAL_ADDR_NODE root], state1))).
Proof.
  split.
  - intros fuel st m state root. split.
    + apply traverse_record_untagged. apply Forall_nil_2.
    + apply (traverse_recording rebuild mapper fuel (start st m ([], state) root)).
  - intros fuel st m state root mapped st1 state1 Hfuel Hnone Hmapper Hroot Hmapped Har Ham.
    apply substitute_by_mapper; try assumption.
    unfold recording. cbn [fst snd]. now rewrite Hmapper.
Qed.

Lemma mapper_only_sees_untagged_nodes_witness :
  btor_non_recursive_extended_substitute_node rebuild_same 2 demo_store [] ([], tt)
    (recording demo_mapper) 13
  = Returns (9, acquired 8 (acquired 13 (acquired 8 demo_store)), [(12, 8)], ([12], tt)).
Proof.
  assert (Har : alive (acquired 8 demo_store) 13) by (eexists; reflexivity).
  assert (Ham : alive (acquired 8 demo_store) 8) by (eexists; reflexivity).
  exact (proj2 (mapper_only_sees_untagged_nodes rebuild_same demo_mapper)
           2%nat demo_store [] tt 13 8 (acquired 8 demo_store) tt
           (le_S 1 1 (le_n 1)) eq_refl eq_refl
           ltac:(discriminate) ltac:(discriminate) Har Ham).
Defined.

End SubstitutionClaims.
